(** * Jet-pump hydraulics (woffl): solver core of [flow/jetflow.py] and
      [flow/jetcheck.py]

    Python floats are modelled as exact rationals ([Q]); every comparison is
    decided on the rational values.  A division whose divisor is zero has no
    rational value: it is modelled as an exception.  Console output
    ([print]) is modelled as a list of strings returned next to the value. *)

From Stdlib Require Import String.
From Stdlib Require Import QArith Qabs Qround Lqa List ZArith Lia Bool.
Import ListNotations.
Open Scope Q_scope.

(** ** Python exceptions and results *)

Module Py.

Inductive exn : Type :=
| ZeroDivisionError   (* float division by zero *)
| ValueError          (* math domain error; numpy argument errors *)
| IndexError          (* index out of range; boolean index of the wrong length *)
| TypeError           (* np.gradient called with the wrong number of coordinates *)
| UnboundLocalError   (* local variable read before assignment *)
| NonFinite.          (* numpy array division by zero: the value is inf or nan
                         (with a RuntimeWarning) and lies outside the rationals *)

Inductive result (A : Type) : Type :=
| Ok (a : A)
| Raise (e : exn)
| OutOfFuel.          (* only for the model's while loops; shown unreachable *)

Arguments Ok {A} a.
Arguments Raise {A} e.
Arguments OutOfFuel {A}.

Definition bind {A B : Type} (r : result A) (k : A -> result B) : result B :=
  match r with
  | Ok a => k a
  | Raise e => Raise e
  | OutOfFuel => OutOfFuel
  end.

End Py.
Export Py.

Notation "x <- c ;; k" := (bind c (fun x => k))
  (at level 61, c at next level, right associativity).
Notation "' pat <- c ;; k" := (bind c (fun x => match x with pat => k end))
  (at level 61, pat pattern, c at next level, right associativity).

(** ** Float comparisons and arithmetic *)

Definition Qleb (a b : Q) : bool := Qle_bool a b.
Definition Qltb (a b : Q) : bool := negb (Qle_bool b a).
Definition Qgtb (a b : Q) : bool := Qltb b a.
Definition Qgeb (a b : Q) : bool := Qleb b a.

(** [a / b] on Python floats. *)
Definition fdiv (a b : Q) : result Q :=
  if Qeq_bool b 0 then Raise ZeroDivisionError else Ok (a / b).

(** [a / b] inside a numpy array expression. *)
Definition npdiv (a b : Q) : result Q :=
  if Qeq_bool b 0 then Raise NonFinite else Ok (a / b).

(** Python's [sum] over a tuple of floats: starts from 0, adds left to right. *)
Definition py_sum (l : list Q) : Q := fold_left Qplus l 0.

(** [a[-1]] of a non-empty array. *)
Definition last_of (l : list Q) : Q := last l 0.

(** [a[-1]] of an array that may be empty. *)
Definition py_last (l : list Q) : result Q :=
  match l with
  | [] => Raise IndexError
  | _ => Ok (last l 0)
  end.

(** [l[-2]] of a list of at least two elements. *)
Definition last_but_one (l : list Q) : Q := last_of (removelast l).

(** [a[-2:]]: the last two elements (all of them when there are fewer). *)
Definition last2 (l : list Q) : list Q := skipn (length l - 2) l.

(** Monadic map over a list, left to right. *)
Fixpoint mapM {A B : Type} (f : A -> result B) (l : list A) : result (list B) :=
  match l with
  | [] => Ok []
  | a :: l' => b <- f a ;; bs <- mapM f l' ;; Ok (b :: bs)
  end.

(** ** numpy and scipy *)

Module Np.

(** A numpy array of floats, of one or two dimensions. *)
Inductive ndarray : Type :=
| Arr1 (a : list Q)
| Arr2 (a : list (list Q)).

Definition ravel (a : ndarray) : list Q :=
  match a with
  | Arr1 l => l
  | Arr2 rows => concat rows
  end.

(** [np.append(a, v)] without an axis: both are flattened. *)
Definition append (a : ndarray) (v : Q) : ndarray := Arr1 (ravel a ++ [v]).

(** [a[-1]]: a scalar for a 1-D array; for a 2-D array the last row, here
    always a one-element array, which numpy's arithmetic and truth tests
    treat as its element. *)
Definition nd_last (a : ndarray) : Q :=
  match a with
  | Arr1 l => last_of l
  | Arr2 rows => last_of (last rows [])
  end.

(** [scipy.integrate.trapezoid(y, x)] on 1-D arrays:
    [(diff(x) * (y[1:] + y[:-1]) / 2.0).sum()]. *)
Fixpoint trapz (y x : list Q) : Q :=
  match y, x with
  | y0 :: ((y1 :: _) as y'), x0 :: ((x1 :: _) as x') =>
      (x1 - x0) * (y1 + y0) / 2 + trapz y' x'
  | _, _ => 0
  end.

Definition trapezoid (y x : list Q) : result Q :=
  if Nat.eqb (length y) (length x) then Ok (trapz y x) else Raise ValueError.

(** The search of [np.interp] for the bracket of [x], started on a sample
    [(x0, y0)] with [x0 <= x]: walk right while the next sample point is
    [<= x]; on the last sample, or on a sample point equal to [x], return
    its value; otherwise interpolate on the bracket. *)
Fixpoint interp_scan (x x0 y0 : Q) (rest : list (Q * Q)) : Q :=
  match rest with
  | [] => y0
  | (x1, y1) :: rest' =>
      if Qleb x1 x then interp_scan x x1 y1 rest'
      else if Qeq_bool x0 x then y0
      else (y1 - y0) / (x1 - x0) * (x - x0) + y0
  end.

(** [np.interp(x, xp, fp)] for a scalar [x] and 1-D [xp], [fp], with the
    default [left = fp[0]] and [right = fp[-1]].  On increasing [xp] this is
    the piecewise-linear interpolant; numpy does not check the order. *)
Definition interp (x : Q) (xp fp : list Q) : result Q :=
  match xp, fp with
  | [], _ => Raise ValueError
  | x0 :: xs, y0 :: ys =>
      if negb (Nat.eqb (length xp) (length fp)) then Raise ValueError
      else if Qltb (last_of xp) x then Ok (last_of fp)
      else if Qltb x x0 then Ok y0
      else Ok (interp_scan x x0 y0 (combine xs ys))
  | _ :: _, [] => Raise ValueError
  end.

(** [np.interp] where the samples may be 2-D: the compiled routine accepts
    1-D sample arrays only ("object too deep for desired array"). *)
Definition interp_nd (x : Q) (xp fp : ndarray) : result Q :=
  match xp, fp with
  | Arr1 xp1, Arr1 fp1 => interp x xp1 fp1
  | _, _ => Raise ValueError
  end.

(** Interior points of [np.gradient(f, x)] for uneven spacing
    [dx1 = x(i) - x(i-1)], [dx2 = x(i+1) - x(i)]:
    [a f(i-1) + b f(i) + c f(i+1)] with [a = -dx2 / (dx1 (dx1 + dx2))],
    [b = (dx2 - dx1) / (dx1 dx2)], [c = dx1 / (dx2 (dx1 + dx2))]; on even
    spacing [h] numpy computes [(f(i+1) - f(i-1)) / (2 h)], the same
    number.  The last point is the one-sided difference. *)
Fixpoint gradient_from (f x : list Q) : result (list Q) :=
  match f, x with
  | f0 :: ((f1 :: f2 :: _) as f'), x0 :: ((x1 :: x2 :: _) as x') =>
      let dx1 := x1 - x0 in
      let dx2 := x2 - x1 in
      a <- npdiv (- dx2) (dx1 * (dx1 + dx2)) ;;
      b <- npdiv (dx2 - dx1) (dx1 * dx2) ;;
      c <- npdiv dx1 (dx2 * (dx1 + dx2)) ;;
      gs <- gradient_from f' x' ;;
      Ok ((a * f0 + b * f1 + c * f2) :: gs)
  | [f0; f1], [x0; x1] =>
      g <- npdiv (f1 - f0) (x1 - x0) ;; Ok [g]
  | _, _ => Ok []
  end.

(** [np.gradient(f, x)] for 1-D [f] with coordinates [x] (edge order 1). *)
Definition gradient (f x : list Q) : result (list Q) :=
  if negb (Nat.eqb (length x) (length f)) then Raise ValueError
  else
    match f, x with
    | f0 :: f1 :: _, x0 :: x1 :: _ =>
        g0 <- npdiv (f1 - f0) (x1 - x0) ;;
        gs <- gradient_from f x ;;
        Ok (g0 :: gs)
    | _, _ => Raise ValueError
    end.

(** [a[mask]] with a boolean mask. *)
Fixpoint select (a : list Q) (mask : list bool) : list Q :=
  match a, mask with
  | v :: a', b :: mask' => if b then v :: select a' mask' else select a' mask'
  | _, _ => []
  end.

Definition bool_index (a : list Q) (mask : list bool) : result (list Q) :=
  if Nat.eqb (length a) (length mask) then Ok (select a mask)
  else Raise IndexError.

(** [np.flip] of a 1-D array. *)
Definition flip (a : list Q) : list Q := rev a.

End Np.

(** ** Collaborators

    The fluid-mixture model ([pvt.resmix.ResMix]), the inflow curve
    ([flow.inflow.InFlow]) and the single-phase formulas
    ([flow.singlephase]) are used through these interfaces. *)

(** [ResMix]: [condition] returns the re-conditioned mixture. *)
Class ResMixOps (R : Type) : Type := {
  condition : R -> Q -> Q -> R;
  insitu_volm_flow : R -> Q -> list Q;
  rho_mix : R -> Q;
  cmix : R -> Q
}.

(** [InFlow]: [oil_flow p] is [oil_flow(p, method="pidx")]. *)
Record InFlow : Type := {
  oil_flow : Q -> Q;
  pres : Q
}.

(** [flow.singlephase]. *)
Record SinglePhase : Type := {
  velocity : Q -> Q -> Q;
  momentum : Q -> Q -> Q -> Q;
  massflow : Q -> Q -> Q -> Q;
  mom_to_psi : Q -> Q -> Q;
  diff_press_static : Q -> Q -> Q
}.

(** [math.sqrt]: a domain error below zero, else the root [root x]. *)
Definition math_sqrt (root : Q -> Q) (x : Q) : result Q :=
  if Qltb x 0 then Raise ValueError else Ok (root x).

(** ** [flow/jetflow.py] *)

Module Jetflow.

Definition enterance_ke (ken vte : Q) : Q := (1 + ken) * (vte ^ 2) / 2.

Definition incremental_ee (prs_ray rho_ray : list Q) : result Q :=
  y <- mapM (npdiv 1) rho_ray ;;
  Np.trapezoid y (map (fun p => 144 * 32.174 * p) prs_ray).

Definition psu_secant (psu1 psu2 dete1 dete2 : Q) : result Q :=
  q <- fdiv (dete2 * (psu1 - psu2)) (dete1 - dete2) ;;
  Ok (psu2 - q).

Definition tee_positive_slope (pte_ray tee_ray : list Q) : result (list bool) :=
  dtdp <- Np.gradient tee_ray pte_ray ;;
  Ok (map (fun d => Qgeb d 0) dtdp).

Definition tee_zero (pte_ray rho_ray vte_ray tee_ray : list Q)
  : result (Q * Q * Q) :=
  mask <- tee_positive_slope pte_ray tee_ray ;;
  tee_m <- Np.bool_index tee_ray mask ;;
  pte_m <- Np.bool_index pte_ray mask ;;
  pte <- Np.interp 0 (Np.flip tee_m) (Np.flip pte_m) ;;
  rho_m <- Np.bool_index rho_ray mask ;;
  rho_te <- Np.interp 0 (Np.flip tee_m) (Np.flip rho_m) ;;
  vte_m <- Np.bool_index vte_ray mask ;;
  vte <- Np.interp 0 (Np.flip tee_m) (Np.flip vte_m) ;;
  Ok (pte, rho_te, vte).

Definition nozzle_velocity (root : Q -> Q) (pni pte knz rho_nz : Q) : result Q :=
  q <- fdiv (2 * 32.174 * 144 * (pni - pte)) (rho_nz * (1 + knz)) ;;
  math_sqrt root q.

Definition diffuser_ke (kdi vtm vdi : Q) : Q :=
  (vdi ^ 2 - (1 - kdi) * vtm ^ 2) / 2.

(** [ft3s_to_bpd] is [sp.ft3s_to_bpd] of [flow.singlephase]. *)
Definition nozzle_rate (ft3s_to_bpd : Q -> Q) (vnz anz : Q) : Q * Q :=
  let qnz_ft3s := anz * vnz in
  let qnz_bpd := ft3s_to_bpd qnz_ft3s in
  (qnz_ft3s, qnz_bpd).

Definition throat_wc (qoil_std wc_su qwat_nz : Q) : result Q :=
  qwat_su <- fdiv (qoil_std * wc_su) (1 - wc_su) ;;
  let qwat_tot := qwat_nz + qwat_su in
  fdiv qwat_tot (qwat_tot + qoil_std).

Section Solvers.

Context {R : Type} {RM : ResMixOps R}.
Variable sp : SinglePhase.

(** *** [tee_last] *)

(** The local arrays of [tee_last], with the current [prop_su]. *)
Record te_locals : Type := {
  te_prop : R;
  pte_ray : list Q;
  vte_ray : list Q;
  rho_ray : list Q;
  mach_ray : list Q;
  kse_ray : list Q;
  ese_ray : list Q;
  tee_ray : Np.ndarray
}.

Definition pdec : Q := 50.

(** The state before the loop.  [tee_ray = np.array([kse_ray + ese_ray])]
    wraps the one-element sum in a list: it is a 2-D array of shape (1, 1)
    until the first [np.append] flattens it. *)
Definition tee_init (psu tsu ken ate qoil_std : Q) (prop_su : R)
  : result te_locals :=
  let prop_su := condition prop_su psu tsu in
  let qtot := py_sum (insitu_volm_flow prop_su qoil_std) in
  let vte := velocity sp qtot ate in
  mach <- fdiv vte (cmix prop_su) ;;
  let kse := enterance_ke ken vte in
  Ok {| te_prop := prop_su;
        pte_ray := [psu];
        vte_ray := [vte];
        rho_ray := [rho_mix prop_su];
        mach_ray := [mach];
        kse_ray := [kse];
        ese_ray := [0];
        tee_ray := Np.Arr2 [[kse + 0]] |}.

Definition tee_cond (s : te_locals) : bool :=
  Qleb (last_of (mach_ray s)) 1 && Qgtb (last_of (pte_ray s)) pdec.

Definition tee_body (tsu ken ate qoil_std : Q) (s : te_locals)
  : result te_locals :=
  let pte := last_of (pte_ray s) - pdec in
  let prop_su := condition (te_prop s) pte tsu in
  let qtot := py_sum (insitu_volm_flow prop_su qoil_std) in
  let vte := velocity sp qtot ate in
  let vte_ray' := vte_ray s ++ [vte] in
  mach <- fdiv vte (cmix prop_su) ;;
  let mach_ray' := mach_ray s ++ [mach] in
  let pte_ray' := pte_ray s ++ [pte] in
  let rho_ray' := rho_ray s ++ [rho_mix prop_su] in
  let kse_ray' := kse_ray s ++ [enterance_ke ken vte] in
  inc <- incremental_ee (last2 pte_ray') (last2 rho_ray') ;;
  let ese_ray' := ese_ray s ++ [last_of (ese_ray s) + inc] in
  let tee_ray' := Np.append (tee_ray s) (last_of kse_ray' + last_of ese_ray') in
  Ok {| te_prop := prop_su;
        pte_ray := pte_ray';
        vte_ray := vte_ray';
        rho_ray := rho_ray';
        mach_ray := mach_ray';
        kse_ray := kse_ray';
        ese_ray := ese_ray';
        tee_ray := tee_ray' |}.

Fixpoint tee_loop (fuel : nat) (tsu ken ate qoil_std : Q) (s : te_locals)
  : result te_locals :=
  if tee_cond s then
    match fuel with
    | O => OutOfFuel
    | S fuel' =>
        s' <- tee_body tsu ken ate qoil_std s ;;
        tee_loop fuel' tsu ken ate qoil_std s'
    end
  else Ok s.

(** Steps that bring [psu] down to the floor [pdec]: enough fuel for the
    loop (see [tee_loop_fuel]). *)
Definition tee_fuel (psu : Q) : nat := Z.to_nat (Qceiling (psu / pdec)).

(** The arrays of [tee_last] when its loop ends. *)
Definition tee_trace (psu tsu ken ate : Q) (ipr_su : InFlow) (prop_su : R)
  : result te_locals :=
  let qoil_std := oil_flow ipr_su psu in
  s0 <- tee_init psu tsu ken ate qoil_std prop_su ;;
  tee_loop (tee_fuel psu) tsu ken ate qoil_std s0.

Definition tee_fin_of (s : te_locals) : result Q :=
  if Qgeb (last_of (mach_ray s)) 1
  then Np.interp_nd 1 (Np.Arr1 (mach_ray s)) (tee_ray s)
  else Ok (Np.nd_last (tee_ray s)).

Definition tee_last (psu tsu ken ate : Q) (ipr_su : InFlow) (prop_su : R)
  : result (Q * Q * list Q * list Q * list Q * Np.ndarray) :=
  s <- tee_trace psu tsu ken ate ipr_su prop_su ;;
  tee_fin <- tee_fin_of s ;;
  Ok (tee_fin, oil_flow ipr_su psu, pte_ray s, rho_ray s, vte_ray s, tee_ray s).

(** *** [tee_minimize] *)

(** The locals of [tee_minimize]: the two lists, the loop counter, what the
    last [tee_last] call of the loop bound ([qoil_std] and the four arrays;
    [None] while unbound), and the console output. *)
Record tm_locals : Type := {
  psu_list : list Q;
  tee_list : list Q;
  tm_n : nat;
  tm_bound : option (Q * list Q * list Q * list Q * Np.ndarray);
  tm_out : list string
}.

Definition psu_diff : Q := 5.

Definition tm_cond (s : tm_locals) : bool :=
  Qgtb (Qabs (last_but_one (psu_list s) - last_of (psu_list s))) psu_diff.

Definition tm_body (tsu ken ate : Q) (ipr_su : InFlow) (prop_su : R)
  (s : tm_locals) : result tm_locals :=
  psu_nxt <- psu_secant (last_but_one (psu_list s)) (last_of (psu_list s))
                        (last_but_one (tee_list s)) (last_of (tee_list s)) ;;
  '(tee_nxt, qoil_std, pte_ray, rho_ray, vte_ray, tee_ray)
     <- tee_last psu_nxt tsu ken ate ipr_su prop_su ;;
  Ok {| psu_list := psu_list s ++ [psu_nxt];
        tee_list := tee_list s ++ [tee_nxt];
        tm_n := (tm_n s + 1)%nat;
        tm_bound := Some (qoil_std, pte_ray, rho_ray, vte_ray, tee_ray);
        tm_out := tm_out s |}.

Definition tm_warn (s : tm_locals) : tm_locals :=
  {| psu_list := psu_list s;
     tee_list := tee_list s;
     tm_n := tm_n s;
     tm_bound := tm_bound s;
     tm_out := tm_out s ++ ["TEE Minimization did not converge"%string] |}.

(** The [while] loop; [rem] counts the iterations left before [n == 10]. *)
Fixpoint tm_loop (rem : nat) (tsu ken ate : Q) (ipr_su : InFlow) (prop_su : R)
  (s : tm_locals) : result tm_locals :=
  if tm_cond s then
    match rem with
    | O => OutOfFuel
    | S rem' =>
        s' <- tm_body tsu ken ate ipr_su prop_su s ;;
        if Nat.eqb (tm_n s') 10 then Ok (tm_warn s')
        else tm_loop rem' tsu ken ate ipr_su prop_su s'
    end
  else Ok s.

(** The locals of [tee_minimize] when its secant loop ends. *)
Definition tee_minimize_loop (tsu ken ate : Q) (ipr_su : InFlow) (prop_su : R)
  : result tm_locals :=
  let psu_list0 := [pres ipr_su - 300; pres ipr_su - 400] in
  '(tee0, _, _, _, _, _)
     <- tee_last (nth 0 psu_list0 0) tsu ken ate ipr_su prop_su ;;
  '(tee1, _, _, _, _, _)
     <- tee_last (nth 1 psu_list0 0) tsu ken ate ipr_su prop_su ;;
  tm_loop 10 tsu ken ate ipr_su prop_su
    {| psu_list := psu_list0;
       tee_list := [tee0; tee1];
       tm_n := 0;
       tm_bound := None;
       tm_out := [] |}.

(** [tee_zero] on the arrays of the last [tee_last] call.  [np.gradient]
    rejects a 2-D energy array given one coordinate array. *)
Definition tee_zero_nd (pte_ray rho_ray vte_ray : list Q) (tee_ray : Np.ndarray)
  : result (Q * Q * Q) :=
  match tee_ray with
  | Np.Arr1 t => tee_zero pte_ray rho_ray vte_ray t
  | Np.Arr2 _ => Raise TypeError
  end.

(** Returns the value and the console output. *)
Definition tee_minimize (tsu ken ate : Q) (ipr_su : InFlow) (prop_su : R)
  : result (Q * Q * Q * Q * Q * list string) :=
  s <- tee_minimize_loop tsu ken ate ipr_su prop_su ;;
  match tm_bound s with
  | None => Raise UnboundLocalError
  | Some (qoil_std, pte_ray, rho_ray, vte_ray, tee_ray) =>
      '(pte, rho_te, vte) <- tee_zero_nd pte_ray rho_ray vte_ray tee_ray ;;
      Ok (last_of (psu_list s), qoil_std, pte, rho_te, vte, tm_out s)
  end.

(** *** Throat *)

Definition throat_inlet_momentum (vnz anz rho_nz vte ate rho_te : Q) : Q * Q :=
  let mom_nz := momentum sp rho_nz vnz anz in
  let mom_te := momentum sp rho_te vte ate in
  (mom_nz, mom_te).

Definition throat_outlet_momentum (kth vtm ath rho_tm : Q) : Q * Q :=
  let mom_tm := momentum sp rho_tm vtm ath in
  let mom_fr := 1 / 2 * kth * mom_tm in
  (mom_tm, mom_fr).

(** One evaluation of the throat equation at a trial pressure [p]: the
    statements shared by the seed and by the loop body of
    [throat_discharge], up to [ptm = pte - dp_tm]. *)
Definition throat_estimate (pte tte kth ath mtm mom_nz mom_te : Q) (prop_tm : R)
  (p : Q) : result Q :=
  let rho_tm := rho_mix (condition prop_tm p tte) in
  q <- fdiv mtm rho_tm ;;
  let vtm := velocity sp q ath in
  let '(mom_tm, mom_fr) := throat_outlet_momentum kth vtm ath rho_tm in
  let mom_tot := mom_fr + mom_tm - mom_nz - mom_te in
  let dp_tm := mom_to_psi sp mom_tot ath in
  Ok (pte - dp_tm).

Record td_locals : Type := {
  ptm_list : list Q;
  td_n : nat;
  td_out : list string
}.

Definition ptm_diff : Q := 5.

Definition td_cond (s : td_locals) : bool :=
  Qgtb (Qabs (last_but_one (ptm_list s) - last_of (ptm_list s))) ptm_diff.

Definition td_body (pte tte kth ath mtm mom_nz mom_te : Q) (prop_tm : R)
  (s : td_locals) : result td_locals :=
  let ptm := last_of (ptm_list s) in
  ptm' <- throat_estimate pte tte kth ath mtm mom_nz mom_te prop_tm ptm ;;
  Ok {| ptm_list := ptm_list s ++ [ptm'];
        td_n := (td_n s + 1)%nat;
        td_out := td_out s |}.

Definition td_warn (s : td_locals) : td_locals :=
  {| ptm_list := ptm_list s;
     td_n := td_n s;
     td_out := td_out s ++ ["Throat Mixture did not converge"%string] |}.

Fixpoint td_loop (rem : nat) (pte tte kth ath mtm mom_nz mom_te : Q)
  (prop_tm : R) (s : td_locals) : result td_locals :=
  if td_cond s then
    match rem with
    | O => OutOfFuel
    | S rem' =>
        s' <- td_body pte tte kth ath mtm mom_nz mom_te prop_tm s ;;
        if Nat.eqb (td_n s') 10 then Ok (td_warn s')
        else td_loop rem' pte tte kth ath mtm mom_nz mom_te prop_tm s'
    end
  else Ok s.

(** The locals of [throat_discharge] when its loop ends. *)
Definition throat_discharge_loop
  (pte tte kth vnz anz rho_nz vte ate rho_te : Q) (prop_tm : R)
  : result td_locals :=
  let '(mom_nz, mom_te) :=
    throat_inlet_momentum vnz anz rho_nz vte ate rho_te in
  let mnz := massflow sp rho_nz vnz anz in
  let mte := massflow sp rho_te vte ate in
  let ath := anz + ate in
  let mtm := mnz + mte in
  ptm <- throat_estimate pte tte kth ath mtm mom_nz mom_te prop_tm pte ;;
  td_loop 10 pte tte kth ath mtm mom_nz mom_te prop_tm
    {| ptm_list := [pte; ptm]; td_n := 0; td_out := [] |}.

(** Returns the value and the console output. *)
Definition throat_discharge
  (pte tte kth vnz anz rho_nz vte ate rho_te : Q) (prop_tm : R)
  : result (Q * list string) :=
  s <- throat_discharge_loop pte tte kth vnz anz rho_nz vte ate rho_te prop_tm ;;
  Ok (last_of (ptm_list s), td_out s).

(** *** Diffuser *)

(** The local arrays of [diffuser_discharge], with the current [prop_tm],
    the loop counter and the console output. *)
Record di_locals : Type := {
  di_prop : R;
  pdi_ray : list Q;
  vdi_ray : list Q;
  di_rho_ray : list Q;
  di_kse_ray : list Q;
  di_ese_ray : list Q;
  dte_ray : Np.ndarray;
  di_n : nat;
  di_out : list string
}.

Definition pinc : Q := 100.

(** The state before the loop, with the throat velocity [vtm].  As in
    [tee_last], [dte_ray = np.array([kse_ray + ese_ray])] is 2-D until the
    first [np.append]. *)
Definition di_init (ptm ttm kdi ath adi qoil_std : Q) (prop_tm : R)
  : Q * di_locals :=
  let prop_tm := condition prop_tm ptm ttm in
  let qtot := py_sum (insitu_volm_flow prop_tm qoil_std) in
  let vtm := velocity sp qtot ath in
  let vdi := velocity sp qtot adi in
  let kse := diffuser_ke kdi vtm vdi in
  (vtm,
   {| di_prop := prop_tm;
      pdi_ray := [ptm];
      vdi_ray := [vdi];
      di_rho_ray := [rho_mix prop_tm];
      di_kse_ray := [kse];
      di_ese_ray := [0];
      dte_ray := Np.Arr2 [[kse + 0]];
      di_n := 0;
      di_out := [] |}).

Definition di_cond (s : di_locals) : bool := Qltb (Np.nd_last (dte_ray s)) 0.

Definition di_body (ttm kdi adi qoil_std vtm : Q) (s : di_locals)
  : result di_locals :=
  let pdi := last_of (pdi_ray s) + pinc in
  let prop_tm := condition (di_prop s) pdi ttm in
  let qtot := py_sum (insitu_volm_flow prop_tm qoil_std) in
  let vdi := velocity sp qtot adi in
  let vdi_ray' := vdi_ray s ++ [vdi] in
  let pdi_ray' := pdi_ray s ++ [pdi] in
  let rho_ray' := di_rho_ray s ++ [rho_mix prop_tm] in
  let kse_ray' := di_kse_ray s ++ [diffuser_ke kdi vtm vdi] in
  inc <- incremental_ee (last2 pdi_ray') (last2 rho_ray') ;;
  let ese_ray' := di_ese_ray s ++ [last_of (di_ese_ray s) + inc] in
  let dte_ray' := Np.append (dte_ray s) (last_of kse_ray' + last_of ese_ray') in
  Ok {| di_prop := prop_tm;
        pdi_ray := pdi_ray';
        vdi_ray := vdi_ray';
        di_rho_ray := rho_ray';
        di_kse_ray := kse_ray';
        di_ese_ray := ese_ray';
        dte_ray := dte_ray';
        di_n := (di_n s + 1)%nat;
        di_out := di_out s |}.

Definition di_warn (s : di_locals) : di_locals :=
  {| di_prop := di_prop s;
     pdi_ray := pdi_ray s;
     vdi_ray := vdi_ray s;
     di_rho_ray := di_rho_ray s;
     di_kse_ray := di_kse_ray s;
     di_ese_ray := di_ese_ray s;
     dte_ray := dte_ray s;
     di_n := di_n s;
     di_out := di_out s ++ ["Diffuser did not find discharge pressure"%string] |}.

(** The [while] loop; [rem] counts the iterations left before [n == 15]. *)
Fixpoint di_loop (rem : nat) (ttm kdi adi qoil_std vtm : Q) (s : di_locals)
  : result di_locals :=
  if di_cond s then
    match rem with
    | O => OutOfFuel
    | S rem' =>
        s' <- di_body ttm kdi adi qoil_std vtm s ;;
        if Nat.eqb (di_n s') 15 then Ok (di_warn s')
        else di_loop rem' ttm kdi adi qoil_std vtm s'
    end
  else Ok s.

(** The arrays of [diffuser_discharge] when its loop ends. *)
Definition diffuser_trace (ptm ttm kdi ath adi qoil_std : Q) (prop_tm : R)
  : result di_locals :=
  let '(vtm, s0) := di_init ptm ttm kdi ath adi qoil_std prop_tm in
  di_loop 15 ttm kdi adi qoil_std vtm s0.

(** Returns [(vtm, pdi)] and the console output. *)
Definition diffuser_discharge (ptm ttm kdi ath adi qoil_std : Q) (prop_tm : R)
  : result (Q * Q * list string) :=
  let vtm := fst (di_init ptm ttm kdi ath adi qoil_std prop_tm) in
  s <- diffuser_trace ptm ttm kdi ath adi qoil_std prop_tm ;;
  pdi <- Np.interp_nd 0 (dte_ray s) (Np.Arr1 (pdi_ray s)) ;;
  Ok (vtm, pdi, di_out s).

End Solvers.

End Jetflow.

(** ** [flow/jetcheck.py] *)

Module Jetcheck.

(** [geometry.jetpump.JetPump], [geometry.pipe.Pipe] and
    [geometry.wellprofile.WellProfile]: the attributes read here. *)
Record JetPump : Type := {
  ken : Q; knz : Q; kth : Q; kdi : Q; ath : Q; anz : Q; ate : Q
}.

Record Pipe : Type := { inn_area : Q }.

Record WellProfile : Type := { jetpump_vd : Q }.

Section Residual.

Context {R : Type}.
Variable sp : SinglePhase.

(** [jf.jetpump_overall], unpacked by its caller as
    [(pte, ptm, pdi_jp, qoil_std, prop_tm)]. *)
Variable jetpump_overall :
  Q -> Q -> Q -> Q -> Q -> Q -> Q -> Q -> Q -> Q -> Q -> InFlow -> R ->
  result (Q * Q * Q * Q * R).

(** [of.top_down_press], returning [(md_seg, prs_ray, slh_ray)]. *)
Variable top_down_press :
  Q -> Q -> Q -> R -> Pipe -> WellProfile ->
  result (list Q * list Q * list Q).

Definition system_residual (psu pwh tsu rho_pf ppf_surf : Q) (jpump : JetPump)
  (wellbore : Pipe) (wellprof : WellProfile) (ipr_su : InFlow) (prop_su : R)
  : result Q :=
  let pni := ppf_surf + diff_press_static sp rho_pf (jetpump_vd wellprof) in
  '(pte, ptm, pdi_jp, qoil_std, prop_tm)
     <- jetpump_overall psu tsu pni rho_pf (ken jpump) (knz jpump) (kth jpump)
          (kdi jpump) (ath jpump) (anz jpump) (inn_area wellbore)
          ipr_su prop_su ;;
  '(md_seg, prs_ray, slh_ray)
     <- top_down_press pwh tsu qoil_std prop_tm wellbore wellprof ;;
  pdi_of <- py_last prs_ray ;;
  Ok (pdi_jp - pdi_of).

End Residual.

Section Solver.

Context {R : Type}.
Variable sp : SinglePhase.

(** [jf.psu_minimize], unpacked by its caller as
    [(psu_min, qsu_std, pte, rho_te, vte)]. *)
Variable psu_minimize :
  Q -> Q -> Q -> InFlow -> R -> result (Q * Q * Q * Q * Q).

Variable jetpump_overall :
  Q -> Q -> Q -> Q -> Q -> Q -> Q -> Q -> Q -> Q -> Q -> InFlow -> R ->
  result (Q * Q * Q * Q * R).

Variable top_down_press :
  Q -> Q -> Q -> R -> Pipe -> WellProfile ->
  result (list Q * list Q * list Q).

(** Returns [None]: both branches only bind locals. *)
Definition jetpump_solver (pwh tsu rho_pf ppf_surf : Q) (jpump : JetPump)
  (wellbore : Pipe) (wellprof : WellProfile) (ipr : InFlow) (prop : R)
  : result unit :=
  '(psu_min, qsu_std, pte, rho_te, vte)
     <- psu_minimize tsu (ken jpump) (ate jpump) ipr prop ;;
  residual <- system_residual sp jetpump_overall top_down_press
                psu_min pwh tsu rho_pf ppf_surf jpump wellbore wellprof
                ipr prop ;;
  if Qgeb residual 0 then
    let status_te := "Choked"%string in
    let status_of := "Flows"%string in
    Ok tt
  else
    let rawr := 1 in
    Ok tt.

End Solver.

End Jetcheck.

(** ** Concrete collaborators, to run the solvers on inputs *)

Module Examples.

(** A mixture of constant density and sonic velocity whose volumetric flow
    is the oil rate alone. *)
Record const_mix : Type := { cm_rho : Q; cm_c : Q }.

#[global] Instance const_mix_ops : ResMixOps const_mix := {|
  condition m _ _ := m;
  insitu_volm_flow _ q := [q; 0; 0];
  rho_mix m := cm_rho m;
  cmix m := cm_c m
|}.

(** A mixture that remembers the pressure it was conditioned at, with one
    density from 490 psig up and another below. *)
Record step_mix : Type := { sm_p : Q; sm_hi : Q; sm_lo : Q }.

#[global] Instance step_mix_ops : ResMixOps step_mix := {|
  condition m p _ := {| sm_p := p; sm_hi := sm_hi m; sm_lo := sm_lo m |};
  insitu_volm_flow _ q := [q; 0; 0];
  rho_mix m := if Qleb 490 (sm_p m) then sm_hi m else sm_lo m;
  cmix _ := 1000
|}.

(** A mixture of constant density whose sonic velocity is, in number, the
    pressure it was conditioned at: the flow chokes as the pressure falls. *)
Record sonic_mix : Type := { so_p : Q }.

#[global] Instance sonic_mix_ops : ResMixOps sonic_mix := {|
  condition _ p _ := {| so_p := p |};
  insitu_volm_flow _ q := [q; 0; 0];
  rho_mix _ := 463305.6;
  cmix m := so_p m
|}.

(** The usual single-phase formulas. *)
Definition sp_std : SinglePhase := {|
  velocity q a := q / a;
  momentum rho v a := rho * v ^ 2 * a;
  massflow rho v a := rho * v * a;
  mom_to_psi mom a := mom / (32.174 * a * 144);
  diff_press_static rho h := rho * h / 144
|}.

(** An inflow curve of constant oil rate. *)
Definition ipr_const (q p : Q) : InFlow := {| oil_flow := fun _ => q; pres := p |}.

(** An inflow curve of two rates: [q_lo] up to 150 psig, [q_hi] above. *)
Definition ipr_two (q_lo q_hi p : Q) : InFlow :=
  {| oil_flow := fun psu => if Qleb psu 150 then q_lo else q_hi; pres := p |}.

(** Density for which 100 psi of expansion energy is one unit:
    [144 * 32.174 * 100]. *)
Definition rho_unit : Q := 463305.6.

Definition mix_unit : const_mix := {| cm_rho := rho_unit; cm_c := 1000 |}.

(** A stand-in for the square root: the identity (exact on 0 and 1). *)
Definition root_id (x : Q) : Q := x.

(** A jet-pump model and an outflow traverse of fixed results. *)
Definition overall_fixed (pdi_jp qoil_std : Q)
  (psu tsu pni rho_pf ken knz kth kdi ath anz adi : Q) (ipr : InFlow)
  (prop : const_mix) : result (Q * Q * Q * Q * const_mix) :=
  Ok (psu, psu, pdi_jp + pni, qoil_std, prop).

Definition traverse_fixed (prs_ray : list Q)
  (pwh tsu qoil_std : Q) (prop : const_mix) (pipe : Jetcheck.Pipe)
  (prof : Jetcheck.WellProfile) : result (list Q * list Q * list Q) :=
  Ok ([0; 100], prs_ray, [1]).

End Examples.

(** ** Energy traces

    The arrays a stepped search grows in parallel, seen as one trace:
    pressure, density, kinetic energy, cumulative expansion energy and
    total energy. *)

Record etrace : Type := {
  e_prs : list Q;
  e_rho : list Q;
  e_kse : list Q;
  e_ese : list Q;
  e_tot : Np.ndarray
}.

Definition te_view {R : Type} (s : Jetflow.te_locals (R := R)) : etrace :=
  {| e_prs := Jetflow.pte_ray s;
     e_rho := Jetflow.rho_ray s;
     e_kse := Jetflow.kse_ray s;
     e_ese := Jetflow.ese_ray s;
     e_tot := Jetflow.tee_ray s |}.

Definition di_view {R : Type} (s : Jetflow.di_locals (R := R)) : etrace :=
  {| e_prs := Jetflow.pdi_ray s;
     e_rho := Jetflow.di_rho_ray s;
     e_kse := Jetflow.di_kse_ray s;
     e_ese := Jetflow.di_ese_ray s;
     e_tot := Jetflow.dte_ray s |}.

(** One loop iteration on the trace: the five appends. *)
Definition et_push (v : etrace) (p r k inc : Q) : etrace :=
  {| e_prs := e_prs v ++ [p];
     e_rho := e_rho v ++ [r];
     e_kse := e_kse v ++ [k];
     e_ese := e_ese v ++ [last_of (e_ese v) + inc];
     e_tot := Np.append (e_tot v)
                (last_of (e_kse v ++ [k])
                 + last_of (e_ese v ++ [last_of (e_ese v) + inc])) |}.

(** The pressure steps of the throat-entry and of the diffuser search. *)
Definition te_next (p : Q) : Q := p - 50.
Definition di_next (p : Q) : Q := p + 100.

(** Each sample's pressure is [next] of the sample before. *)
Definition stepped (next : Q -> Q) (prs : list Q) : Prop :=
  forall i a b,
    nth_error prs i = Some a -> nth_error prs (S i) = Some b -> b = next a.

(** Each sample's cumulative expansion energy is the one before plus
    [incremental_ee] over the two samples. *)
Definition ee_accumulates (prs rho ese : list Q) : Prop :=
  forall i p0 p1 r0 r1 e0 e1,
    nth_error prs i = Some p0 -> nth_error prs (S i) = Some p1 ->
    nth_error rho i = Some r0 -> nth_error rho (S i) = Some r1 ->
    nth_error ese i = Some e0 -> nth_error ese (S i) = Some e1 ->
    exists inc,
      Jetflow.incremental_ee [p0; p1] [r0; r1] = Ok inc /\ e1 = e0 + inc.

(** Each sample's total energy is its kinetic plus its cumulative
    expansion energy. *)
Definition total_is_sum (kse ese tot : list Q) : Prop :=
  forall i k e,
    nth_error kse i = Some k -> nth_error ese i = Some e ->
    nth_error tot i = Some (k + e).

(** Over three consecutive samples the cumulative expansion energy grows
    by the two pairwise increments, and the total energy by that sum plus
    the change of kinetic energy. *)
Definition three_sample_sum (prs rho kse ese tot : list Q) : Prop :=
  forall i p0 p1 p2 r0 r1 r2 e0 e1 e2,
    nth_error prs i = Some p0 -> nth_error prs (S i) = Some p1 ->
    nth_error prs (S (S i)) = Some p2 ->
    nth_error rho i = Some r0 -> nth_error rho (S i) = Some r1 ->
    nth_error rho (S (S i)) = Some r2 ->
    nth_error ese i = Some e0 -> nth_error ese (S i) = Some e1 ->
    nth_error ese (S (S i)) = Some e2 ->
    exists inc01 inc12,
      Jetflow.incremental_ee [p0; p1] [r0; r1] = Ok inc01 /\
      Jetflow.incremental_ee [p1; p2] [r1; r2] = Ok inc12 /\
      e2 - e0 == inc01 + inc12 /\
      forall k0 k2 t0 t2,
        nth_error kse i = Some k0 -> nth_error kse (S (S i)) = Some k2 ->
        nth_error tot i = Some t0 -> nth_error tot (S (S i)) = Some t2 ->
        t2 - t0 == (k2 - k0) + (inc01 + inc12).

(** What every trace of a stepped search satisfies (C2). *)
Definition energy_bookkeeping (v : etrace) : Prop :=
  ee_accumulates (e_prs v) (e_rho v) (e_ese v) /\
  total_is_sum (e_kse v) (e_ese v) (Np.ravel (e_tot v)) /\
  three_sample_sum (e_prs v) (e_rho v) (e_kse v) (e_ese v) (Np.ravel (e_tot v)).

(** The invariant of a trace started at pressure [p0] and stepped by
    [next]. *)
Record et_inv (next : Q -> Q) (p0 : Q) (v : etrace) : Prop := {
  inv_len_rho : length (e_rho v) = length (e_prs v);
  inv_len_kse : length (e_kse v) = length (e_prs v);
  inv_len_ese : length (e_ese v) = length (e_prs v);
  inv_len_tot : length (Np.ravel (e_tot v)) = length (e_prs v);
  inv_first_p : nth_error (e_prs v) 0 = Some p0;
  inv_first_e : nth_error (e_ese v) 0 = Some 0;
  inv_step : stepped next (e_prs v);
  inv_ee : ee_accumulates (e_prs v) (e_rho v) (e_ese v);
  inv_tot : total_is_sum (e_kse v) (e_ese v) (Np.ravel (e_tot v))
}.

(** ** Linear interpolation

    [y] is the value at [x] of the line through two adjacent samples that
    bracket [x], or the value of a sample whose point is [x]. *)
Definition interpolated_at (x : Q) (xs ys : list Q) (y : Q) : Prop :=
  (exists j x0 x1 y0 y1,
     nth_error xs j = Some x0 /\ nth_error xs (S j) = Some x1 /\
     nth_error ys j = Some y0 /\ nth_error ys (S j) = Some y1 /\
     x0 < x /\ x < x1 /\
     y = (y1 - y0) / (x1 - x0) * (x - x0) + y0) \/
  (exists j x0,
     nth_error xs j = Some x0 /\ nth_error ys j = Some y /\ x0 == x).

(** ** The diffuser trace at its zero crossing *)

(** What [np.interp(0, dte_ray, pdi_ray)] returns on a trace whose energies
    before the last are negative: [d'], [p'] are the energy and pressure
    before the last sample, [dl], [pl] those of the last. *)
Definition crossing (d' dl p' pl : Q) : Q :=
  if Qltb dl 0 then pl
  else if Qleb dl 0 then pl
  else (pl - p') / (dl - d') * (0 - d') + p'.

(** The locals of [diffuser_discharge] after one more iteration whose
    expansion-energy increment is [inc]. *)
Definition di_push {R : Type} {RM : ResMixOps R} (sp : SinglePhase)
  (ttm kdi adi qoil_std vtm : Q) (s : Jetflow.di_locals) (inc : Q)
  : Jetflow.di_locals :=
  let pdi := last_of (Jetflow.pdi_ray s) + Jetflow.pinc in
  let prop_tm := condition (Jetflow.di_prop s) pdi ttm in
  let qtot := py_sum (insitu_volm_flow prop_tm qoil_std) in
  let vdi := velocity sp qtot adi in
  let kse_ray' := Jetflow.di_kse_ray s ++ [Jetflow.diffuser_ke kdi vtm vdi] in
  let ese_ray' :=
    Jetflow.di_ese_ray s ++ [last_of (Jetflow.di_ese_ray s) + inc] in
  {| Jetflow.di_prop := prop_tm;
     Jetflow.pdi_ray := Jetflow.pdi_ray s ++ [pdi];
     Jetflow.vdi_ray := Jetflow.vdi_ray s ++ [vdi];
     Jetflow.di_rho_ray := Jetflow.di_rho_ray s ++ [rho_mix prop_tm];
     Jetflow.di_kse_ray := kse_ray';
     Jetflow.di_ese_ray := ese_ray';
     Jetflow.dte_ray :=
       Np.append (Jetflow.dte_ray s) (last_of kse_ray' + last_of ese_ray');
     Jetflow.di_n := (Jetflow.di_n s + 1)%nat;
     Jetflow.di_out := Jetflow.di_out s |}.

(** The total energy of the sample appended at pressure [pl + 100]. *)
Definition dte_next {R : Type} {RM : ResMixOps R} (sp : SinglePhase)
  (ttm kdi adi qoil_std vtm : Q) (s : Jetflow.di_locals) (pl inc : Q) : Q :=
  Jetflow.diffuser_ke kdi vtm
    (velocity sp
       (py_sum (insitu_volm_flow
                  (condition (Jetflow.di_prop s) (pl + Jetflow.pinc) ttm)
                  qoil_std)) adi)
  + (last_of (Jetflow.di_ese_ray s) + inc).

(** The shape of the diffuser trace during the search: energies [pre_d]
    before the last one [dl], all negative; pressures [pre_p] before the
    last one [pl], 100 psi apart from [ptm] on. *)
Record di_shape {R : Type} (ptm : Q) (s : Jetflow.di_locals (R := R))
  (pre_d pre_p : list Q) (dl pl : Q) : Prop := {
  sh_arr : (pre_d = [] /\ Jetflow.dte_ray s = Np.Arr2 [[dl]]) \/
           (pre_d <> [] /\ Jetflow.dte_ray s = Np.Arr1 (pre_d ++ [dl]));
  sh_pdi : Jetflow.pdi_ray s = pre_p ++ [pl];
  sh_len : length pre_d = length pre_p;
  sh_neg : Forall (fun e => e < 0) pre_d;
  sh_pl : pl == ptm + 100 * inject_Z (Z.of_nat (length pre_p));
  sh_pp : pre_p <> [] ->
          last_of pre_p
          == ptm + 100 * inject_Z (Z.of_nat (length pre_p - 1))
}.

Definition di_shaped {R : Type} (ptm : Q) (s : Jetflow.di_locals (R := R))
  : Prop :=
  exists pre_d pre_p dl pl, di_shape ptm s pre_d pre_p dl pl.

(** Two searches that differ in the friction factor only: the same
    pressures, densities and expansion energies, and total energies [c]
    apart. *)
Definition di_rel {R : Type} (c ptm : Q) (s1 s2 : Jetflow.di_locals (R := R))
  : Prop :=
  Jetflow.di_prop s1 = Jetflow.di_prop s2 /\
  Jetflow.di_rho_ray s1 = Jetflow.di_rho_ray s2 /\
  Jetflow.di_ese_ray s1 = Jetflow.di_ese_ray s2 /\
  Jetflow.di_n s1 = Jetflow.di_n s2 /\
  exists pre1 pre2 pre_p dl1 dl2 pl,
    di_shape ptm s1 pre1 pre_p dl1 pl /\
    di_shape ptm s2 pre2 pre_p dl2 pl /\
    dl2 == dl1 + c /\
    (pre1 <> [] -> last_of pre2 == last_of pre1 + c).

(** ** Sound states of the throat-entry search

    The current mixture is [good] (one whose conditionings keep non-zero
    density and sonic velocity), and the last recorded density is
    non-zero. *)
Definition te_sound {R : Type} (good : R -> Prop)
  (s : Jetflow.te_locals (R := R)) : Prop :=
  good (Jetflow.te_prop s) /\ Jetflow.pte_ray s <> [] /\
  Jetflow.rho_ray s <> [] /\ ~ last_of (Jetflow.rho_ray s) == 0.

(** * Properties *)

(** ** Comparisons *)

Lemma Qleb_le (a b : Q) : Qleb a b = true <-> a <= b.
Proof. unfold Qleb. apply Qle_bool_iff. Qed.

Lemma Qleb_gt (a b : Q) : Qleb a b = false <-> b < a.
Proof.
  unfold Qleb. split; intro H.
  - apply Qnot_le_lt. intro Hle. apply Qle_bool_iff in Hle. congruence.
  - destruct (Qle_bool a b) eqn:E; [|reflexivity].
    apply Qle_bool_iff in E. lra.
Qed.

Lemma Qltb_lt (a b : Q) : Qltb a b = true <-> a < b.
Proof.
  unfold Qltb. rewrite negb_true_iff. apply (Qleb_gt b a).
Qed.

Lemma Qltb_ge (a b : Q) : Qltb a b = false <-> b <= a.
Proof.
  unfold Qltb. rewrite negb_false_iff. apply (Qleb_le b a).
Qed.

Lemma Qgtb_gt (a b : Q) : Qgtb a b = true <-> b < a.
Proof. unfold Qgtb. apply Qltb_lt. Qed.

Lemma Qgtb_le (a b : Q) : Qgtb a b = false <-> a <= b.
Proof. unfold Qgtb. apply Qltb_ge. Qed.

Lemma Qgeb_ge (a b : Q) : Qgeb a b = true <-> b <= a.
Proof. unfold Qgeb. apply Qleb_le. Qed.

Lemma Qgeb_lt (a b : Q) : Qgeb a b = false <-> a < b.
Proof. unfold Qgeb. apply Qleb_gt. Qed.

Lemma fdiv_ok (a b : Q) : ~ b == 0 -> fdiv a b = Ok (a / b).
Proof.
  intro H. unfold fdiv. destruct (Qeq_bool b 0) eqn:E; [|reflexivity].
  apply Qeq_bool_eq in E. contradiction.
Qed.

Lemma fdiv_zero (a b : Q) : b == 0 -> fdiv a b = Raise ZeroDivisionError.
Proof.
  intro H. unfold fdiv. now rewrite (Qeq_eq_bool _ _ H).
Qed.

Lemma npdiv_ok (a b : Q) : ~ b == 0 -> npdiv a b = Ok (a / b).
Proof.
  intro H. unfold npdiv. destruct (Qeq_bool b 0) eqn:E; [|reflexivity].
  apply Qeq_bool_eq in E. contradiction.
Qed.

Lemma npdiv_inv (a b q : Q) : npdiv a b = Ok q -> ~ b == 0 /\ q = a / b.
Proof.
  unfold npdiv. destruct (Qeq_bool b 0) eqn:E; [discriminate|].
  intro H. injection H as <-. split; [|reflexivity].
  now apply Qeq_bool_neq.
Qed.

(** ** Nozzle velocity *)

(** C10: with [rho_nz > 0] and [knz > -1], [nozzle_velocity] raises the
    domain error of [math.sqrt] whenever [pni < pte], and for [pni >= pte] it
    returns the root of
    [2 * 32.174 * 144 * (pni - pte) / (rho_nz * (1 + knz))]. *)
Theorem nozzle_velocity_domain (root : Q -> Q) (pni pte knz rho_nz : Q) :
  0 < rho_nz -> -1 < knz ->
  (pni < pte ->
   Jetflow.nozzle_velocity root pni pte knz rho_nz = Raise ValueError) /\
  (pte <= pni ->
   Jetflow.nozzle_velocity root pni pte knz rho_nz =
   Ok (root (2 * 32.174 * 144 * (pni - pte) / (rho_nz * (1 + knz))))).
Proof.
  intros Hrho Hknz.
  assert (Hden : 0 < rho_nz * (1 + knz)).
  { apply Qmult_lt_0_compat; lra. }
  assert (Hnz : ~ rho_nz * (1 + knz) == 0) by lra.
  unfold Jetflow.nozzle_velocity. rewrite (fdiv_ok _ _ Hnz). cbn [bind].
  unfold math_sqrt. split; intro Hp.
  - assert (Hneg : 2 * 32.174 * 144 * (pni - pte) / (rho_nz * (1 + knz)) < 0).
    { apply Qlt_shift_div_r; [exact Hden|]. lra. }
    apply Qltb_lt in Hneg. now rewrite Hneg.
  - assert (Hpos : 0 <= 2 * 32.174 * 144 * (pni - pte) / (rho_nz * (1 + knz))).
    { apply Qle_shift_div_l; [exact Hden|]. lra. }
    apply Qltb_ge in Hpos. now rewrite Hpos.
Qed.

Lemma nozzle_velocity_domain_witness :
  Jetflow.nozzle_velocity Examples.root_id 100 200 0 50 = Raise ValueError /\
  Jetflow.nozzle_velocity Examples.root_id 200 200 0 50 =
  Ok (Examples.root_id (2 * 32.174 * 144 * (200 - 200) / (50 * (1 + 0)))).
Proof.
  split.
  - apply (nozzle_velocity_domain Examples.root_id 100 200 0 50);
      reflexivity.
  - apply (nozzle_velocity_domain Examples.root_id 200 200 0 50);
      [reflexivity | reflexivity | discriminate].
Defined.

(** ** Secant update *)

(** C5: [psu_secant] has no guard: for every pair of trial pressures whose
    objective values are equal, the update divides by zero. *)
Theorem psu_secant_equal_objectives (psu1 psu2 dete1 dete2 : Q) :
  dete1 == dete2 ->
  Jetflow.psu_secant psu1 psu2 dete1 dete2 = Raise ZeroDivisionError.
Proof.
  intro H. unfold Jetflow.psu_secant.
  rewrite fdiv_zero; [reflexivity | lra].
Qed.

Lemma psu_secant_equal_objectives_witness :
  Jetflow.psu_secant 200 100 (-3 # 8) (-3 # 8) = Raise ZeroDivisionError.
Proof.
  apply (psu_secant_equal_objectives 200 100 (-3 # 8) (-3 # 8)).
  reflexivity.
Defined.

(** Away from equal objective values the update is the secant formula. *)
Lemma psu_secant_distinct (psu1 psu2 dete1 dete2 : Q) :
  ~ dete1 == dete2 ->
  Jetflow.psu_secant psu1 psu2 dete1 dete2 =
  Ok (psu2 - dete2 * (psu1 - psu2) / (dete1 - dete2)).
Proof.
  intro H. unfold Jetflow.psu_secant.
  rewrite fdiv_ok; [reflexivity | lra].
Qed.

(** ** System residual *)

(** C8: [system_residual] is the diffuser discharge pressure of the
    jet-pump model, run from the nozzle-inlet pressure
    [ppf_surf + diff_press_static rho_pf jetpump_vd], minus the last element
    of the pressure array of the outflow traverse run at the model's oil
    rate and mixture. *)
Theorem system_residual_value {R : Type} (sp : SinglePhase)
  (jetpump_overall :
     Q -> Q -> Q -> Q -> Q -> Q -> Q -> Q -> Q -> Q -> Q -> InFlow -> R ->
     result (Q * Q * Q * Q * R))
  (top_down_press :
     Q -> Q -> Q -> R -> Jetcheck.Pipe -> Jetcheck.WellProfile ->
     result (list Q * list Q * list Q))
  (psu pwh tsu rho_pf ppf_surf : Q) (jpump : Jetcheck.JetPump)
  (wellbore : Jetcheck.Pipe) (wellprof : Jetcheck.WellProfile)
  (ipr_su : InFlow) (prop_su : R)
  (pte ptm pdi_jp qoil_std : Q) (prop_tm : R)
  (md_seg prs_ray slh_ray : list Q) :
  jetpump_overall psu tsu
    (ppf_surf + diff_press_static sp rho_pf (Jetcheck.jetpump_vd wellprof))
    rho_pf (Jetcheck.ken jpump) (Jetcheck.knz jpump) (Jetcheck.kth jpump)
    (Jetcheck.kdi jpump) (Jetcheck.ath jpump) (Jetcheck.anz jpump)
    (Jetcheck.inn_area wellbore) ipr_su prop_su
  = Ok (pte, ptm, pdi_jp, qoil_std, prop_tm) ->
  top_down_press pwh tsu qoil_std prop_tm wellbore wellprof
  = Ok (md_seg, prs_ray, slh_ray) ->
  prs_ray <> [] ->
  Jetcheck.system_residual sp jetpump_overall top_down_press
    psu pwh tsu rho_pf ppf_surf jpump wellbore wellprof ipr_su prop_su
  = Ok (pdi_jp - last prs_ray 0).
Proof.
  intros Hjp Hof Hne. unfold Jetcheck.system_residual.
  rewrite Hjp. cbn [bind]. rewrite Hof. cbn [bind].
  destruct prs_ray as [|p ps]; [contradiction|]. reflexivity.
Qed.

Lemma system_residual_value_witness :
  Jetcheck.system_residual Examples.sp_std
    (Examples.overall_fixed 1500 400)
    (Examples.traverse_fixed [400; 1800; 2600])
    800 400 80 62 3000
    {| Jetcheck.ken := 0; Jetcheck.knz := 0; Jetcheck.kth := 0;
       Jetcheck.kdi := 0; Jetcheck.ath := 2; Jetcheck.anz := 1;
       Jetcheck.ate := 1 |}
    {| Jetcheck.inn_area := 3 |} {| Jetcheck.jetpump_vd := 144 |}
    (Examples.ipr_const 400 1200) Examples.mix_unit
  = Ok (1500 + (3000 + 62 * 144 / 144) - last [400; 1800; 2600] 0).
Proof.
  apply (system_residual_value Examples.sp_std
           (Examples.overall_fixed 1500 400)
           (Examples.traverse_fixed [400; 1800; 2600])
           800 400 80 62 3000 _ _ _ _ _
           800 800 (1500 + (3000 + 62 * 144 / 144)) 400 Examples.mix_unit
           [0; 100] [400; 1800; 2600] [1]).
  - reflexivity.
  - reflexivity.
  - discriminate.
Defined.

(** The residual raises [IndexError] on an empty pressure array. *)
Lemma system_residual_empty_profile :
  Jetcheck.system_residual Examples.sp_std
    (Examples.overall_fixed 1500 400) (Examples.traverse_fixed [])
    800 400 80 62 3000
    {| Jetcheck.ken := 0; Jetcheck.knz := 0; Jetcheck.kth := 0;
       Jetcheck.kdi := 0; Jetcheck.ath := 2; Jetcheck.anz := 1;
       Jetcheck.ate := 1 |}
    {| Jetcheck.inn_area := 3 |} {| Jetcheck.jetpump_vd := 144 |}
    (Examples.ipr_const 400 1200) Examples.mix_unit
  = Raise IndexError.
Proof. reflexivity. Qed.

(** ** Lists grown by appending *)

Lemma nth_error_snoc_lt {A : Type} (l : list A) (x : A) (i : nat) :
  (i < length l)%nat -> nth_error (l ++ [x]) i = nth_error l i.
Proof. intro H. now apply nth_error_app1. Qed.

Lemma nth_error_snoc_eq {A : Type} (l : list A) (x : A) :
  nth_error (l ++ [x]) (length l) = Some x.
Proof.
  rewrite nth_error_app2 by lia. now rewrite Nat.sub_diag.
Qed.

Lemma nth_error_snoc_inv {A : Type} (l : list A) (x a : A) (i : nat) :
  nth_error (l ++ [x]) i = Some a ->
  ((i < length l)%nat /\ nth_error l i = Some a) \/ (i = length l /\ a = x).
Proof.
  intro H. destruct (Nat.lt_ge_cases i (length l)) as [Hlt | Hge].
  - left. split; [exact Hlt|]. now rewrite nth_error_snoc_lt in H.
  - right. assert (Hi : (i < length (l ++ [x]))%nat).
    { apply nth_error_Some. congruence. }
    rewrite length_app in Hi. cbn in Hi.
    assert (i = length l) by lia. subst i.
    rewrite nth_error_snoc_eq in H. split; congruence.
Qed.

Lemma nth_error_is_last (l : list Q) (i : nat) (a : Q) :
  nth_error l i = Some a -> S i = length l -> last_of l = a.
Proof.
  unfold last_of. revert i. induction l as [|x l IH]; intros i Hn Hlen.
  - discriminate.
  - destruct i as [|i]; cbn in Hn, Hlen.
    + destruct l; [|discriminate]. cbn. congruence.
    + destruct l as [|y l']; [discriminate|].
      change (last (x :: y :: l') 0) with (last (y :: l') 0).
      apply (IH i); [exact Hn | lia].
Qed.

Lemma last_of_snoc (l : list Q) (x : Q) : last_of (l ++ [x]) = x.
Proof. unfold last_of. apply last_last. Qed.

Lemma skipn_pred_length (l : list Q) :
  l <> [] -> skipn (length l - 1) l = [last_of l].
Proof.
  unfold last_of. induction l as [|x l IH]; intro Hne; [contradiction|].
  destruct l as [|y l'].
  - reflexivity.
  - cbn [length]. replace (S (S (length l')) - 1)%nat with (S (length l')) by lia.
    cbn [skipn]. change (last (x :: y :: l') 0) with (last (y :: l') 0).
    rewrite <- IH by discriminate. cbn [length].
    now replace (S (length l') - 1)%nat with (length l') by lia.
Qed.

Lemma last2_snoc (l : list Q) (x : Q) :
  l <> [] -> last2 (l ++ [x]) = [last_of l; x].
Proof.
  intro Hne. unfold last2. rewrite length_app. cbn [length].
  replace (length l + 1 - 2)%nat with (length l - 1)%nat by lia.
  rewrite skipn_app. rewrite skipn_pred_length by exact Hne.
  assert (Hlen : (0 < length l)%nat).
  { destruct l; [contradiction | cbn; lia]. }
  replace (length l - 1 - length l)%nat with 0%nat by lia.
  reflexivity.
Qed.

Lemma nth_error_nonempty {A : Type} (l : list A) (i : nat) (a : A) :
  nth_error l i = Some a -> l <> [].
Proof. destruct l; [destruct i; discriminate | discriminate]. Qed.

(** ** The trace invariant *)

Lemma et_push_inv (next : Q -> Q) (p0 : Q) (v : etrace) (r k inc : Q) :
  et_inv next p0 v ->
  Jetflow.incremental_ee
    (last2 (e_prs v ++ [next (last_of (e_prs v))])) (last2 (e_rho v ++ [r]))
  = Ok inc ->
  et_inv next p0 (et_push v (next (last_of (e_prs v))) r k inc).
Proof.
  intros [Lr Lk Le Lt Fp Fe St EE Tot] Hinc.
  assert (Hne : e_prs v <> []) by (eapply nth_error_nonempty; exact Fp).
  assert (Hpos : (0 < length (e_prs v))%nat).
  { destruct (e_prs v); [contradiction | cbn; lia]. }
  assert (Hner : e_rho v <> []).
  { intro E. rewrite E in Lr. cbn in Lr. lia. }
  rewrite (last2_snoc _ _ Hne), (last2_snoc _ _ Hner) in Hinc.
  constructor; cbn [et_push e_prs e_rho e_kse e_ese e_tot Np.append Np.ravel].
  - rewrite !length_app. cbn. lia.
  - rewrite !length_app. cbn. lia.
  - rewrite !length_app. cbn. lia.
  - rewrite !length_app. cbn. lia.
  - rewrite nth_error_snoc_lt by exact Hpos. exact Fp.
  - rewrite nth_error_snoc_lt by lia. exact Fe.
  - intros i a b Ha Hb.
    apply nth_error_snoc_inv in Hb. destruct Hb as [[Hlt Hb] | [Heq ->]].
    + rewrite nth_error_snoc_lt in Ha by lia. now apply (St i).
    + rewrite nth_error_snoc_lt in Ha by lia.
      now rewrite (nth_error_is_last _ _ _ Ha Heq).
  - intros i q0 q1 r0 r1 e0 e1 Hp0 Hp1 Hr0 Hr1 He0 He1.
    apply nth_error_snoc_inv in Hp1. destruct Hp1 as [[Hlt Hp1] | [Heq ->]].
    + rewrite nth_error_snoc_lt in Hp0, Hr0, Hr1, He0, He1 by lia.
      now apply (EE i q0 q1 r0 r1 e0 e1).
    + rewrite nth_error_snoc_lt in Hp0, Hr0, He0 by lia.
      rewrite Heq, <- Lr, nth_error_snoc_eq in Hr1.
      rewrite Heq, <- Le, nth_error_snoc_eq in He1.
      injection Hr1 as <-. injection He1 as <-.
      rewrite <- (nth_error_is_last _ _ _ Hp0 Heq).
      rewrite <- (nth_error_is_last _ _ _ Hr0 ltac:(lia)).
      rewrite <- (nth_error_is_last _ _ _ He0 ltac:(lia)).
      exists inc. split; [exact Hinc | reflexivity].
  - intros i k' e' Hk He. rewrite !last_of_snoc.
    apply nth_error_snoc_inv in Hk. destruct Hk as [[Hlt Hk] | [Heq ->]].
    + rewrite nth_error_snoc_lt in He by lia.
      rewrite nth_error_snoc_lt by lia. now apply Tot.
    + rewrite Heq, Lk, <- Le, nth_error_snoc_eq in He. injection He as <-.
      rewrite Heq, Lk, <- Lt. apply nth_error_snoc_eq.
Qed.

Section TraceProps.

Context {R : Type} {RM : ResMixOps R}.
Variable sp : SinglePhase.

Lemma tee_init_inv (psu tsu ken ate qoil_std : Q) (prop_su : R) s0 :
  Jetflow.tee_init sp psu tsu ken ate qoil_std prop_su = Ok s0 ->
  et_inv te_next psu (te_view s0).
Proof.
  unfold Jetflow.tee_init. destruct (fdiv _ _) as [m| |]; try discriminate.
  cbn [bind]. intro H. injection H as <-.
  constructor; cbn; try reflexivity.
  - intros i a b _ Hb. destruct i; discriminate.
  - intros i p0 p1 r0 r1 e0 e1 _ Hp1. destruct i; discriminate.
  - intros [|i] k e Hk He; cbn in *.
    + injection Hk as <-. injection He as <-. reflexivity.
    + destruct i; discriminate.
Qed.

Lemma tee_body_inv (psu tsu ken ate qoil_std : Q) s s' :
  et_inv te_next psu (te_view s) ->
  Jetflow.tee_body sp tsu ken ate qoil_std s = Ok s' ->
  et_inv te_next psu (te_view s').
Proof.
  intros Hinv. unfold Jetflow.tee_body.
  destruct (fdiv _ _) as [m| |]; try discriminate. cbn [bind].
  destruct (Jetflow.incremental_ee _ _) as [inc| |] eqn:Einc; try discriminate.
  cbn [bind]. intro H. injection H as <-.
  apply (et_push_inv te_next psu (te_view s) _ _ inc Hinv Einc).
Qed.

Lemma tee_loop_inv (P : Jetflow.te_locals -> Prop) (tsu ken ate qoil_std : Q) :
  (forall s s', P s -> Jetflow.tee_cond s = true ->
                Jetflow.tee_body sp tsu ken ate qoil_std s = Ok s' -> P s') ->
  forall fuel s s',
    P s -> Jetflow.tee_loop sp fuel tsu ken ate qoil_std s = Ok s' ->
    P s' /\ Jetflow.tee_cond s' = false.
Proof.
  intros Hstep fuel. induction fuel as [|fuel IH]; intros s s' HP Hrun;
    cbn [Jetflow.tee_loop] in Hrun;
    destruct (Jetflow.tee_cond s) eqn:Ec.
  - discriminate.
  - injection Hrun as <-. now split.
  - destruct (Jetflow.tee_body sp tsu ken ate qoil_std s) as [s1| |] eqn:Eb;
      try discriminate.
    cbn [bind] in Hrun. apply (IH s1 s'); [|exact Hrun].
    now apply (Hstep s s1).
  - injection Hrun as <-. now split.
Qed.

Lemma tee_trace_inv (psu tsu ken ate : Q) (ipr_su : InFlow) (prop_su : R) s :
  Jetflow.tee_trace sp psu tsu ken ate ipr_su prop_su = Ok s ->
  et_inv te_next psu (te_view s) /\ Jetflow.tee_cond s = false.
Proof.
  unfold Jetflow.tee_trace.
  destruct (Jetflow.tee_init _ _ _ _ _ _ _) as [s0| |] eqn:E0; try discriminate.
  cbn [bind]. intro Hrun.
  apply (tee_loop_inv (fun s => et_inv te_next psu (te_view s))
           tsu ken ate (oil_flow ipr_su psu)) with (fuel := Jetflow.tee_fuel psu)
           (s := s0); [| |exact Hrun].
  - intros s1 s2 H1 _ Hb. eapply tee_body_inv; eassumption.
  - eapply tee_init_inv; eassumption.
Qed.

Lemma di_init_inv (ptm ttm kdi ath adi qoil_std : Q) (prop_tm : R) :
  et_inv di_next ptm
    (di_view (snd (Jetflow.di_init sp ptm ttm kdi ath adi qoil_std prop_tm))).
Proof.
  constructor; cbn; try reflexivity.
  - intros i a b _ Hb. destruct i; discriminate.
  - intros i p0 p1 r0 r1 e0 e1 _ Hp1. destruct i; discriminate.
  - intros [|i] k e Hk He; cbn in *.
    + injection Hk as <-. injection He as <-. reflexivity.
    + destruct i; discriminate.
Qed.

Lemma di_body_inv (ptm ttm kdi adi qoil_std vtm : Q) s s' :
  et_inv di_next ptm (di_view s) ->
  Jetflow.di_body sp ttm kdi adi qoil_std vtm s = Ok s' ->
  et_inv di_next ptm (di_view s').
Proof.
  intros Hinv. unfold Jetflow.di_body.
  destruct (Jetflow.incremental_ee _ _) as [inc| |] eqn:Einc; try discriminate.
  cbn [bind]. intro H. injection H as <-.
  apply (et_push_inv di_next ptm (di_view s) _ _ inc Hinv Einc).
Qed.

Lemma di_loop_inv (P : Jetflow.di_locals -> Prop) (ttm kdi adi qoil_std vtm : Q) :
  (forall s s', P s -> Jetflow.di_cond s = true ->
                Jetflow.di_body sp ttm kdi adi qoil_std vtm s = Ok s' -> P s') ->
  (forall s, P s -> P (Jetflow.di_warn s)) ->
  forall rem s s',
    P s -> Jetflow.di_loop sp rem ttm kdi adi qoil_std vtm s = Ok s' -> P s'.
Proof.
  intros Hstep Hwarn rem. induction rem as [|rem IH]; intros s s' HP Hrun;
    cbn [Jetflow.di_loop] in Hrun;
    destruct (Jetflow.di_cond s) eqn:Ec.
  - discriminate.
  - now injection Hrun as <-.
  - destruct (Jetflow.di_body sp ttm kdi adi qoil_std vtm s) as [s1| |] eqn:Eb;
      try discriminate.
    cbn [bind] in Hrun. pose proof (Hstep s s1 HP Ec Eb) as HP1.
    destruct (Nat.eqb (Jetflow.di_n s1) 15).
    + injection Hrun as <-. now apply Hwarn.
    + now apply (IH s1 s').
  - now injection Hrun as <-.
Qed.

Lemma diffuser_trace_inv (ptm ttm kdi ath adi qoil_std : Q) (prop_tm : R) s :
  Jetflow.diffuser_trace sp ptm ttm kdi ath adi qoil_std prop_tm = Ok s ->
  et_inv di_next ptm (di_view s).
Proof.
  unfold Jetflow.diffuser_trace.
  pose proof (di_init_inv ptm ttm kdi ath adi qoil_std prop_tm) as H0.
  destruct (Jetflow.di_init sp ptm ttm kdi ath adi qoil_std prop_tm)
    as [vtm s0] eqn:E0.
  cbn [snd] in H0. intro Hrun.
  apply (di_loop_inv (fun s => et_inv di_next ptm (di_view s))
           ttm kdi adi qoil_std vtm) with (rem := 15%nat) (s := s0);
    [| |exact H0|exact Hrun].
  - intros s1 s2 H1 _ Hb. eapply di_body_inv; eassumption.
  - intros s1 H1. exact H1.
Qed.

End TraceProps.

(** ** Ordering of the traces *)

(** C9: in the trace of the throat-entry search every sample's pressure is
    the previous one minus 50 (so strictly lower), in the trace of the
    diffuser search it is the previous one plus 100 (so strictly higher),
    and in both the first sample is the starting pressure with cumulative
    expansion energy 0. *)
Theorem trace_ordering {R : Type} {RM : ResMixOps R} (sp : SinglePhase) :
  (forall (psu tsu ken ate : Q) (ipr_su : InFlow) (prop_su : R) s,
     Jetflow.tee_trace sp psu tsu ken ate ipr_su prop_su = Ok s ->
     (forall i a b,
        nth_error (Jetflow.pte_ray s) i = Some a ->
        nth_error (Jetflow.pte_ray s) (S i) = Some b ->
        b = a - 50 /\ b < a) /\
     nth_error (Jetflow.pte_ray s) 0 = Some psu /\
     nth_error (Jetflow.ese_ray s) 0 = Some 0) /\
  (forall (ptm ttm kdi ath adi qoil_std : Q) (prop_tm : R) d,
     Jetflow.diffuser_trace sp ptm ttm kdi ath adi qoil_std prop_tm = Ok d ->
     (forall i a b,
        nth_error (Jetflow.pdi_ray d) i = Some a ->
        nth_error (Jetflow.pdi_ray d) (S i) = Some b ->
        b = a + 100 /\ a < b) /\
     nth_error (Jetflow.pdi_ray d) 0 = Some ptm /\
     nth_error (Jetflow.di_ese_ray d) 0 = Some 0).
Proof.
  split.
  - intros psu tsu ken ate ipr_su prop_su s Hs.
    destruct (tee_trace_inv sp _ _ _ _ _ _ _ Hs) as [[_ _ _ _ Fp Fe St _ _] _].
    repeat split; try assumption.
    + apply (St i a b); assumption.
    + rewrite (St i a b) by assumption. unfold te_next. lra.
  - intros ptm ttm kdi ath adi qoil_std prop_tm d Hd.
    destruct (diffuser_trace_inv sp _ _ _ _ _ _ _ _ Hd)
      as [_ _ _ _ Fp Fe St _ _].
    repeat split; try assumption.
    + apply (St i a b); assumption.
    + rewrite (St i a b) by assumption. unfold di_next. lra.
Qed.

Lemma trace_ordering_witness :
  (exists s,
     Jetflow.tee_trace Examples.sp_std 200 80 0 1
       (Examples.ipr_const 1.5 500) Examples.mix_unit = Ok s /\
     Jetflow.pte_ray s = [200; 200 - 50; 200 - 50 - 50; 200 - 50 - 50 - 50] /\
     nth_error (Jetflow.pte_ray s) 0 = Some 200 /\
     nth_error (Jetflow.ese_ray s) 0 = Some 0) /\
  (exists d,
     Jetflow.diffuser_trace Examples.sp_std 1000 80 0 0.5 1 1
       Examples.mix_unit = Ok d /\
     Jetflow.pdi_ray d = [1000; 1000 + 100; 1000 + 100 + 100] /\
     nth_error (Jetflow.pdi_ray d) 0 = Some 1000 /\
     nth_error (Jetflow.di_ese_ray d) 0 = Some 0).
Proof.
  split.
  - eexists. split; [vm_compute; reflexivity|].
    split; [reflexivity|].
    apply (proj1 (trace_ordering Examples.sp_std) 200 80 0 1
             (Examples.ipr_const 1.5 500) Examples.mix_unit).
    vm_compute; reflexivity.
  - eexists. split; [vm_compute; reflexivity|].
    split; [reflexivity|].
    apply (proj2 (trace_ordering Examples.sp_std) 1000 80 0 0.5 1 1
             Examples.mix_unit).
    vm_compute; reflexivity.
Defined.

(** ** Energy bookkeeping of the traces *)

(** [incremental_ee] over two samples is the trapezoid of [1 / rho] over
    the pressure step in [144 * 32.174] units. *)
Lemma incremental_ee_two (p0 p1 r0 r1 inc : Q) :
  Jetflow.incremental_ee [p0; p1] [r0; r1] = Ok inc ->
  ~ r0 == 0 /\ ~ r1 == 0 /\
  inc == 144 * 32.174 * (p1 - p0) * ((1 / r0 + 1 / r1) / 2).
Proof.
  unfold Jetflow.incremental_ee. cbn [mapM bind].
  destruct (npdiv 1 r0) as [y0| |] eqn:E0; try discriminate.
  destruct (npdiv 1 r1) as [y1| |] eqn:E1; try discriminate.
  apply npdiv_inv in E0, E1. destruct E0 as [H0 ->], E1 as [H1 ->].
  cbn. intro H. injection H as <-.
  repeat split; try assumption. field. split; assumption.
Qed.

Lemma et_inv_bookkeeping (next : Q -> Q) (p0 : Q) (v : etrace) :
  et_inv next p0 v -> energy_bookkeeping v.
Proof.
  intros [_ _ _ _ _ _ _ EE Tot]. repeat split; try assumption.
  intros i q0 q1 q2 r0 r1 r2 e0 e1 e2 Hp0 Hp1 Hp2 Hr0 Hr1 Hr2 He0 He1 He2.
  destruct (EE i q0 q1 r0 r1 e0 e1) as [inc01 [H01 E01]]; try assumption.
  destruct (EE (S i) q1 q2 r1 r2 e1 e2) as [inc12 [H12 E12]]; try assumption.
  exists inc01, inc12. repeat split; try assumption.
  - subst e1 e2. ring.
  - intros k0 k2 t0 t2 Hk0 Hk2 Ht0 Ht2.
    rewrite (Tot i k0 e0 Hk0 He0) in Ht0.
    rewrite (Tot (S (S i)) k2 e2 Hk2 He2) in Ht2.
    injection Ht0 as <-. injection Ht2 as <-. subst e1 e2. ring.
Qed.

(** C2: in the traces of both stepped searches each sample's cumulative
    expansion energy is the previous one plus [incremental_ee] over the two
    samples, which is the trapezoid of [1 / density] over the pressure step
    times [144 * 32.174]; each sample's total energy is its kinetic plus its
    cumulative expansion energy; and over three consecutive samples the
    cumulative expansion energy of the third minus that of the first is the
    sum of the two pairwise increments (the total energy differs by that sum
    plus the change of kinetic energy). *)
Theorem trace_energy_bookkeeping {R : Type} {RM : ResMixOps R}
  (sp : SinglePhase) :
  (forall (psu tsu ken ate : Q) (ipr_su : InFlow) (prop_su : R) s,
     Jetflow.tee_trace sp psu tsu ken ate ipr_su prop_su = Ok s ->
     ee_accumulates (Jetflow.pte_ray s) (Jetflow.rho_ray s) (Jetflow.ese_ray s) /\
     total_is_sum (Jetflow.kse_ray s) (Jetflow.ese_ray s)
       (Np.ravel (Jetflow.tee_ray s)) /\
     three_sample_sum (Jetflow.pte_ray s) (Jetflow.rho_ray s)
       (Jetflow.kse_ray s) (Jetflow.ese_ray s) (Np.ravel (Jetflow.tee_ray s))) /\
  (forall (ptm ttm kdi ath adi qoil_std : Q) (prop_tm : R) d,
     Jetflow.diffuser_trace sp ptm ttm kdi ath adi qoil_std prop_tm = Ok d ->
     ee_accumulates (Jetflow.pdi_ray d) (Jetflow.di_rho_ray d)
       (Jetflow.di_ese_ray d) /\
     total_is_sum (Jetflow.di_kse_ray d) (Jetflow.di_ese_ray d)
       (Np.ravel (Jetflow.dte_ray d)) /\
     three_sample_sum (Jetflow.pdi_ray d) (Jetflow.di_rho_ray d)
       (Jetflow.di_kse_ray d) (Jetflow.di_ese_ray d)
       (Np.ravel (Jetflow.dte_ray d))) /\
  (forall p0 p1 r0 r1 inc,
     Jetflow.incremental_ee [p0; p1] [r0; r1] = Ok inc ->
     inc == 144 * 32.174 * (p1 - p0) * ((1 / r0 + 1 / r1) / 2)).
Proof.
  split; [|split].
  - intros psu tsu ken ate ipr_su prop_su s Hs.
    destruct (tee_trace_inv sp _ _ _ _ _ _ _ Hs) as [Hinv _].
    exact (et_inv_bookkeeping _ _ _ Hinv).
  - intros ptm ttm kdi ath adi qoil_std prop_tm d Hd.
    pose proof (diffuser_trace_inv sp _ _ _ _ _ _ _ _ Hd) as Hinv.
    exact (et_inv_bookkeeping _ _ _ Hinv).
  - intros p0 p1 r0 r1 inc H. now apply incremental_ee_two in H.
Qed.

Lemma trace_energy_bookkeeping_witness :
  exists d,
    Jetflow.diffuser_trace Examples.sp_std 1000 80 0 0.5 1 1
      Examples.mix_unit = Ok d /\
    length (Jetflow.pdi_ray d) = 3%nat /\
    map Qred (Jetflow.di_ese_ray d) = [0; 1; 2] /\
    map Qred (Np.ravel (Jetflow.dte_ray d)) = [-3 # 2; -1 # 2; 1 # 2] /\
    three_sample_sum (Jetflow.pdi_ray d) (Jetflow.di_rho_ray d)
      (Jetflow.di_kse_ray d) (Jetflow.di_ese_ray d)
      (Np.ravel (Jetflow.dte_ray d)).
Proof.
  eexists. split; [vm_compute; reflexivity|].
  split; [reflexivity|]. split; [vm_compute; reflexivity|].
  split; [vm_compute; reflexivity|].
  apply (proj1 (proj2 (trace_energy_bookkeeping Examples.sp_std))
           1000 80 0 0.5 1 1 Examples.mix_unit).
  vm_compute; reflexivity.
Defined.

(** ** Termination of the throat-entry search *)

Lemma tee_fuel_step (p : Q) :
  50 < p -> (Jetflow.tee_fuel (p - 50) < Jetflow.tee_fuel p)%nat.
Proof.
  intro Hp. unfold Jetflow.tee_fuel, Jetflow.pdec.
  set (c := Qceiling (p / 50)). set (c' := Qceiling ((p - 50) / 50)).
  pose proof (Qle_ceiling (p / 50)) as Hc. fold c in Hc.
  pose proof (Qceiling_lt ((p - 50) / 50)) as Hc'. fold c' in Hc'.
  assert (Hdiv : (p - 50) / 50 == p / 50 - 1) by (field).
  assert (Hone : 1 < p / 50).
  { apply Qlt_shift_div_l; lra. }
  unfold Z.sub in Hc'. rewrite inject_Z_plus in Hc'.
  change (inject_Z (- (1))) with (- (1)) in Hc'.
  rewrite Hdiv in Hc'.
  assert (H1 : inject_Z c' < inject_Z c) by lra.
  rewrite <- Zlt_Qlt in H1.
  assert (H2 : inject_Z 1 < inject_Z c).
  { change (inject_Z 1) with 1. lra. }
  rewrite <- Zlt_Qlt in H2. lia.
Qed.

Section Termination.

Context {R : Type} {RM : ResMixOps R}.
Variable sp : SinglePhase.

Lemma fdiv_fuel (a b : Q) : fdiv a b <> OutOfFuel.
Proof. unfold fdiv. destruct (Qeq_bool b 0); discriminate. Qed.

Lemma mapM_npdiv_fuel (l : list Q) : mapM (npdiv 1) l <> OutOfFuel.
Proof.
  induction l as [|x l IH]; cbn; [discriminate|].
  unfold npdiv at 1. destruct (Qeq_bool x 0); cbn; [discriminate|].
  destruct (mapM (npdiv 1) l); cbn; [discriminate | discriminate | contradiction].
Qed.

Lemma incremental_ee_fuel (prs rho : list Q) :
  Jetflow.incremental_ee prs rho <> OutOfFuel.
Proof.
  unfold Jetflow.incremental_ee.
  pose proof (mapM_npdiv_fuel rho) as H.
  destruct (mapM (npdiv 1) rho) as [y| |]; cbn; [|discriminate|contradiction].
  unfold Np.trapezoid. destruct (Nat.eqb _ _); discriminate.
Qed.

Lemma interp_fuel (x : Q) (xp fp : list Q) : Np.interp x xp fp <> OutOfFuel.
Proof.
  unfold Np.interp. destruct xp as [|x0 xs]; [discriminate|].
  destruct fp as [|y0 ys]; [discriminate|].
  destruct (negb _); [discriminate|].
  destruct (Qltb _ _); [discriminate|].
  destruct (Qltb _ _); discriminate.
Qed.

Lemma interp_nd_fuel (x : Q) (xp fp : Np.ndarray) :
  Np.interp_nd x xp fp <> OutOfFuel.
Proof.
  destruct xp, fp; cbn; try discriminate. apply interp_fuel.
Qed.

Lemma tee_body_last (tsu ken ate qoil_std : Q) (s s' : Jetflow.te_locals) :
  Jetflow.tee_body sp tsu ken ate qoil_std s = Ok s' ->
  Jetflow.pte_ray s' = Jetflow.pte_ray s ++ [last_of (Jetflow.pte_ray s) - 50] /\
  length (Jetflow.mach_ray s') = S (length (Jetflow.mach_ray s)) /\
  exists v, Jetflow.tee_ray s' = Np.Arr1 (Np.ravel (Jetflow.tee_ray s) ++ [v]).
Proof.
  unfold Jetflow.tee_body.
  destruct (fdiv _ _) as [m| |]; try discriminate. cbn [bind].
  destruct (Jetflow.incremental_ee _ _) as [inc| |]; try discriminate.
  cbn [bind]. intro H. injection H as <-. cbn.
  split; [reflexivity|]. split.
  - rewrite length_app. cbn. lia.
  - eexists. reflexivity.
Qed.

Lemma tee_body_fuel (tsu ken ate qoil_std : Q) (s : Jetflow.te_locals) :
  Jetflow.tee_body sp tsu ken ate qoil_std s <> OutOfFuel.
Proof.
  unfold Jetflow.tee_body.
  pose proof (fdiv_fuel
    (velocity sp (py_sum (insitu_volm_flow
       (condition (Jetflow.te_prop s)
          (last_of (Jetflow.pte_ray s) - Jetflow.pdec) tsu) qoil_std)) ate)
    (cmix (condition (Jetflow.te_prop s)
          (last_of (Jetflow.pte_ray s) - Jetflow.pdec) tsu))) as Hf.
  destruct (fdiv _ _) as [m| |]; cbn [bind]; [|discriminate|contradiction].
  match goal with |- context [Jetflow.incremental_ee ?a ?b] =>
    pose proof (incremental_ee_fuel a b) as Hi;
    destruct (Jetflow.incremental_ee a b) end;
    cbn [bind]; [discriminate | discriminate | contradiction].
Qed.

(** The loop ends within [tee_fuel] steps of the current pressure. *)
Lemma tee_loop_fuel (tsu ken ate qoil_std : Q) (fuel : nat) :
  forall s,
    (Jetflow.tee_fuel (last_of (Jetflow.pte_ray s)) <= fuel)%nat ->
    Jetflow.tee_loop sp fuel tsu ken ate qoil_std s <> OutOfFuel.
Proof.
  induction fuel as [|fuel IH]; intros s Hfuel; cbn [Jetflow.tee_loop];
    destruct (Jetflow.tee_cond s) eqn:Ec; try discriminate.
  - exfalso. unfold Jetflow.tee_cond in Ec. apply andb_prop in Ec.
    destruct Ec as [_ Hp]. apply Qgtb_gt in Hp. unfold Jetflow.pdec in Hp.
    pose proof (tee_fuel_step _ Hp). lia.
  - unfold Jetflow.tee_cond in Ec. apply andb_prop in Ec.
    destruct Ec as [_ Hp]. apply Qgtb_gt in Hp. unfold Jetflow.pdec in Hp.
    pose proof (tee_body_fuel tsu ken ate qoil_std s) as Hb.
    destruct (Jetflow.tee_body sp tsu ken ate qoil_std s) as [s1| |] eqn:Eb;
      cbn [bind]; [|discriminate|contradiction].
    apply IH. apply tee_body_last in Eb. destruct Eb as [Eb _].
    rewrite Eb, last_of_snoc.
    pose proof (tee_fuel_step _ Hp). lia.
Qed.

(** [tee_last] returns or raises: its loop terminates on every input. *)
Lemma tee_last_terminates (psu tsu ken ate : Q) (ipr_su : InFlow) (prop_su : R) :
  Jetflow.tee_last sp psu tsu ken ate ipr_su prop_su <> OutOfFuel.
Proof.
  unfold Jetflow.tee_last, Jetflow.tee_trace.
  destruct (Jetflow.tee_init sp psu tsu ken ate (oil_flow ipr_su psu) prop_su)
    as [s0| |] eqn:E0; cbn [bind]; [|discriminate|].
  - pose proof (tee_loop_fuel tsu ken ate (oil_flow ipr_su psu)
                  (Jetflow.tee_fuel psu) s0) as Hl.
    assert (Hp : Jetflow.pte_ray s0 = [psu]).
    { unfold Jetflow.tee_init in E0.
      destruct (fdiv _ _); try discriminate. cbn in E0. now injection E0 as <-. }
    rewrite Hp in Hl. cbn in Hl. specialize (Hl (Nat.le_refl _)).
    destruct (Jetflow.tee_loop _ _ _ _ _ _ _) as [s| |]; cbn [bind];
      [|discriminate|contradiction].
    unfold Jetflow.tee_fin_of.
    destruct (Qgeb _ _); cbn [bind]; [|discriminate].
    pose proof (interp_nd_fuel 1 (Np.Arr1 (Jetflow.mach_ray s)) (Jetflow.tee_ray s)).
    destruct (Np.interp_nd _ _ _); cbn [bind];
      [discriminate | discriminate | contradiction].
  - unfold Jetflow.tee_init in E0. pose proof (fdiv_fuel
      (velocity sp (py_sum (insitu_volm_flow (condition prop_su psu tsu)
         (oil_flow ipr_su psu))) ate) (cmix (condition prop_su psu tsu))).
    destruct (fdiv _ _); try discriminate. contradiction.
Qed.

End Termination.

(** ** The throat-entry search [tee_last] *)

Section TeeLast.

Context {R : Type} {RM : ResMixOps R}.
Variable sp : SinglePhase.

Lemma tee_init_shape (psu tsu ken ate qoil_std : Q) (prop_su : R) s0 :
  Jetflow.tee_init sp psu tsu ken ate qoil_std prop_su = Ok s0 ->
  Jetflow.pte_ray s0 = [psu] /\
  length (Jetflow.mach_ray s0) = 1%nat /\
  exists k, Jetflow.tee_ray s0 = Np.Arr2 [[k]].
Proof.
  unfold Jetflow.tee_init. destruct (fdiv _ _) as [m| |]; try discriminate.
  cbn [bind]. intro H. injection H as <-. cbn.
  repeat split. eexists. reflexivity.
Qed.

(** When the suction sample is already supersonic the loop takes no step,
    the energy array is still the 2-D array of its initialisation, and
    [np.interp] refuses it. *)
Lemma tee_last_no_step_raises (psu tsu ken ate : Q) (ipr_su : InFlow)
  (prop_su : R) s0 :
  Jetflow.tee_init sp psu tsu ken ate (oil_flow ipr_su psu) prop_su = Ok s0 ->
  1 < last_of (Jetflow.mach_ray s0) ->
  Jetflow.tee_trace sp psu tsu ken ate ipr_su prop_su = Ok s0 /\
  Jetflow.tee_last sp psu tsu ken ate ipr_su prop_su = Raise ValueError.
Proof.
  intros H0 Hm.
  assert (Hc : Jetflow.tee_cond s0 = false).
  { unfold Jetflow.tee_cond. apply andb_false_iff. left. now apply Qleb_gt. }
  assert (Ht : Jetflow.tee_trace sp psu tsu ken ate ipr_su prop_su = Ok s0).
  { unfold Jetflow.tee_trace. rewrite H0. cbn [bind].
    destruct (Jetflow.tee_fuel psu); cbn [Jetflow.tee_loop]; now rewrite Hc. }
  split; [exact Ht|].
  unfold Jetflow.tee_last. rewrite Ht. cbn [bind].
  unfold Jetflow.tee_fin_of.
  assert (Hge : Qgeb (last_of (Jetflow.mach_ray s0)) 1 = true).
  { apply Qgeb_ge. lra. }
  rewrite Hge.
  destruct (tee_init_shape _ _ _ _ _ _ _ H0) as [_ [_ [k Hk]]].
  rewrite Hk. reflexivity.
Qed.

(** The appended pressures are positive, and at the exit the last sample is
    supersonic or at most 50 psi. *)
Lemma tee_trace_exit (psu tsu ken ate : Q) (ipr_su : InFlow) (prop_su : R) s :
  Jetflow.tee_trace sp psu tsu ken ate ipr_su prop_su = Ok s ->
  (forall i b, nth_error (Jetflow.pte_ray s) (S i) = Some b -> 0 < b) /\
  (1 < last_of (Jetflow.mach_ray s) \/ last_of (Jetflow.pte_ray s) <= 50).
Proof.
  unfold Jetflow.tee_trace.
  destruct (Jetflow.tee_init _ _ _ _ _ _ _) as [s0| |] eqn:E0; try discriminate.
  cbn [bind]. intro Hrun.
  destruct (tee_loop_inv sp
              (fun s => forall i b,
                 nth_error (Jetflow.pte_ray s) (S i) = Some b -> 0 < b)
              tsu ken ate (oil_flow ipr_su psu)) with
      (fuel := Jetflow.tee_fuel psu) (s := s0) (s' := s) as [Hpos Hc];
    [| |exact Hrun|].
  - intros s1 s2 H1 Hc Hb i b Hn.
    apply tee_body_last in Hb. destruct Hb as [Hb _]. rewrite Hb in Hn.
    apply nth_error_snoc_inv in Hn. destruct Hn as [[_ Hn] | [_ ->]].
    + now apply (H1 i).
    + unfold Jetflow.tee_cond in Hc. apply andb_prop in Hc.
      destruct Hc as [_ Hp]. apply Qgtb_gt in Hp. unfold Jetflow.pdec in Hp. lra.
  - intros i b Hn. apply tee_init_shape in E0. destruct E0 as [E0 _].
    rewrite E0 in Hn. destruct i; discriminate.
  - split; [exact Hpos|].
    unfold Jetflow.tee_cond in Hc. apply andb_false_iff in Hc.
    destruct Hc as [Hc | Hc].
    + left. now apply Qleb_gt.
    + right. apply Qgtb_le in Hc. exact Hc.
Qed.

(** Once the loop has taken a step the energy array is 1-D, as long as the
    mach array, and [tee_last] returns: the energy interpolated at mach 1
    when the last sample has mach [>= 1], else the last energy. *)
Lemma tee_last_after_a_step (psu tsu ken ate : Q) (ipr_su : InFlow)
  (prop_su : R) s t :
  Jetflow.tee_trace sp psu tsu ken ate ipr_su prop_su = Ok s ->
  Jetflow.tee_ray s = Np.Arr1 t ->
  exists tee_fin,
    Jetflow.tee_last sp psu tsu ken ate ipr_su prop_su =
    Ok (tee_fin, oil_flow ipr_su psu, Jetflow.pte_ray s, Jetflow.rho_ray s,
        Jetflow.vte_ray s, Np.Arr1 t) /\
    (1 <= last_of (Jetflow.mach_ray s) ->
     Np.interp 1 (Jetflow.mach_ray s) t = Ok tee_fin) /\
    (last_of (Jetflow.mach_ray s) < 1 -> tee_fin = last_of t).
Proof.
  intros Ht Hshape.
  assert (Hlen : length (Jetflow.mach_ray s)
                 = length (Np.ravel (Jetflow.tee_ray s))
                 /\ Jetflow.mach_ray s <> []).
  { unfold Jetflow.tee_trace in Ht.
    destruct (Jetflow.tee_init _ _ _ _ _ _ _) as [s0| |] eqn:E0;
      try discriminate.
    cbn [bind] in Ht.
    apply (tee_loop_inv sp
             (fun s => length (Jetflow.mach_ray s)
                       = length (Np.ravel (Jetflow.tee_ray s))
                       /\ Jetflow.mach_ray s <> [])
             tsu ken ate (oil_flow ipr_su psu)) with
        (fuel := Jetflow.tee_fuel psu) (s := s0) (s' := s); [| |exact Ht].
    - intros s1 s2 [H1 Hne] _ Hb. apply tee_body_last in Hb.
      destruct Hb as [_ [Hm [v Hv]]]. rewrite Hv. cbn [Np.ravel].
      rewrite length_app. cbn [length]. split; [lia|].
      intro E. rewrite E in Hm. discriminate.
    - apply tee_init_shape in E0. destruct E0 as [_ [Hm [k Hk]]].
      rewrite Hk. cbn. split; [exact Hm|].
      intro E. rewrite E in Hm. discriminate. }
  destruct Hlen as [Hlen Hne]. rewrite Hshape in Hlen. cbn [Np.ravel] in Hlen.
  unfold Jetflow.tee_last. rewrite Ht. cbn [bind].
  unfold Jetflow.tee_fin_of. rewrite Hshape.
  destruct (Qgeb (last_of (Jetflow.mach_ray s)) 1) eqn:Eg.
  - cbn [Np.interp_nd]. unfold Np.interp.
    destruct (Jetflow.mach_ray s) as [|m0 ms] eqn:Em; [contradiction|].
    destruct t as [|t0 ts]; [discriminate|].
    rewrite Hlen, Nat.eqb_refl. cbn [negb].
    apply Qgeb_ge in Eg.
    destruct (Qltb (last_of (m0 :: ms)) 1) eqn:E1;
      [|destruct (Qltb 1 m0) eqn:E2];
      cbn [bind]; eexists; (split; [reflexivity|]);
      (split; [intros _; reflexivity | intro Hlt; lra]).
  - cbn [bind]. eexists. split; [reflexivity|].
    apply Qgeb_lt in Eg. split; [intro; lra | intros _; reflexivity].
Qed.

End TeeLast.

(** C1: for every suction pressure (above 50 psi or not) at which the
    suction sample is already supersonic, the loop of [tee_last] takes no
    step and the call raises [ValueError] in [np.interp], where the claim
    has it return the energy interpolated at mach 1. *)
Theorem tee_last_supersonic_suction {R : Type} {RM : ResMixOps R}
  (sp : SinglePhase) (psu tsu ken ate : Q) (ipr_su : InFlow) (prop_su : R)
  (s0 : Jetflow.te_locals) :
  Jetflow.tee_init sp psu tsu ken ate (oil_flow ipr_su psu) prop_su = Ok s0 ->
  1 < last_of (Jetflow.mach_ray s0) ->
  Jetflow.tee_last sp psu tsu ken ate ipr_su prop_su = Raise ValueError.
Proof.
  intros H0 Hm. now apply (tee_last_no_step_raises sp _ _ _ _ _ _ s0).
Qed.

Lemma tee_last_supersonic_suction_witness :
  Jetflow.tee_last Examples.sp_std 100 80 0 1
    (Examples.ipr_const 2000 500) Examples.mix_unit = Raise ValueError.
Proof.
  eapply (tee_last_supersonic_suction Examples.sp_std 100 80 0 1
            (Examples.ipr_const 2000 500) Examples.mix_unit).
  - vm_compute. reflexivity.
  - vm_compute. reflexivity.
Defined.

(** The same search started at mach 1 steps down to the 50 psi floor and
    returns the energy of the last sample, where mach is still 1. *)
Lemma tee_last_floor_example :
  exists tee_fin pte_ray rho_ray vte_ray tee_ray,
    Jetflow.tee_last Examples.sp_std 200 80 0 1
      {| oil_flow := fun _ => 50; pres := 500 |}
      {| Examples.cm_rho := Examples.rho_unit; Examples.cm_c := 50 |}
    = Ok (tee_fin, 50, pte_ray, rho_ray, vte_ray, tee_ray) /\
    map Qred pte_ray = [200; 150; 100; 50] /\ Qred tee_fin = 2497 # 2.
Proof.
  do 5 eexists. split; [vm_compute; reflexivity|].
  split; vm_compute; reflexivity.
Qed.

(** ** Throat discharge *)

Section Throat.

Context {R : Type} {RM : ResMixOps R}.
Variable sp : SinglePhase.

Lemma throat_estimate_fuel (pte tte kth ath mtm mom_nz mom_te : Q)
  (prop_tm : R) (p : Q) :
  Jetflow.throat_estimate sp pte tte kth ath mtm mom_nz mom_te prop_tm p
  <> OutOfFuel.
Proof.
  unfold Jetflow.throat_estimate.
  pose proof (fdiv_fuel mtm (rho_mix (condition prop_tm p tte))) as H.
  destruct (fdiv _ _); cbn [bind]; [|discriminate|contradiction].
  cbn. discriminate.
Qed.

Lemma td_body_shape (pte tte kth ath mtm mom_nz mom_te : Q) (prop_tm : R)
  (s s' : Jetflow.td_locals) :
  Jetflow.td_body sp pte tte kth ath mtm mom_nz mom_te prop_tm s = Ok s' ->
  Jetflow.td_n s' = S (Jetflow.td_n s) /\
  Jetflow.td_out s' = Jetflow.td_out s /\
  length (Jetflow.ptm_list s') = S (length (Jetflow.ptm_list s)).
Proof.
  unfold Jetflow.td_body.
  destruct (Jetflow.throat_estimate _ _ _ _ _ _ _ _ _ _) as [p| |];
    try discriminate.
  cbn [bind]. intro H. injection H as <-. cbn.
  rewrite length_app. cbn. repeat split; lia.
Qed.

(** What the loop leaves: at most 10 iterations, one estimate appended per
    iteration, convergence below the cap, the warning at the cap. *)
Lemma td_loop_spec (pte tte kth ath mtm mom_nz mom_te : Q) (prop_tm : R)
  (rem : nat) :
  forall s s',
    (Jetflow.td_n s + rem = 10)%nat ->
    Jetflow.td_out s = [] ->
    Jetflow.td_loop sp rem pte tte kth ath mtm mom_nz mom_te prop_tm s = Ok s' ->
    (Jetflow.td_n s <= Jetflow.td_n s' <= 10)%nat /\
    (length (Jetflow.ptm_list s') - Jetflow.td_n s'
     = length (Jetflow.ptm_list s) - Jetflow.td_n s)%nat /\
    ((Jetflow.td_n s' < 10)%nat ->
     Jetflow.td_cond s' = false /\ Jetflow.td_out s' = []) /\
    ((Jetflow.td_n s < 10)%nat -> Jetflow.td_n s' = 10%nat ->
     Jetflow.td_out s' = ["Throat Mixture did not converge"%string]).
Proof.
  induction rem as [|rem IH]; intros s s' Hn Hout Hrun;
    cbn [Jetflow.td_loop] in Hrun;
    destruct (Jetflow.td_cond s) eqn:Ec; try discriminate.
  - injection Hrun as <-. repeat split; try lia; try assumption.
  - destruct (Jetflow.td_body _ _ _ _ _ _ _ _ _ _) as [s1| |] eqn:Eb;
      try discriminate.
    cbn [bind] in Hrun. apply td_body_shape in Eb.
    destruct Eb as [En [Eo El]].
    destruct (Nat.eqb (Jetflow.td_n s1) 10) eqn:E10.
    + apply Nat.eqb_eq in E10. injection Hrun as <-. cbn.
      repeat split; try lia. intros _ _. now rewrite Eo, Hout.
    + apply Nat.eqb_neq in E10.
      destruct (IH s1 s') as [H1 [H2 [H3 H4]]]; try assumption; try lia.
      { congruence. }
      repeat split; try lia; try (apply H3; assumption).
      intros _ Hs'. apply H4; lia.
  - injection Hrun as <-. repeat split; try lia; try assumption.
Qed.

Lemma td_loop_fuel (pte tte kth ath mtm mom_nz mom_te : Q) (prop_tm : R)
  (rem : nat) :
  forall s,
    (Jetflow.td_n s + rem = 10)%nat -> (Jetflow.td_n s < 10)%nat ->
    Jetflow.td_loop sp rem pte tte kth ath mtm mom_nz mom_te prop_tm s
    <> OutOfFuel.
Proof.
  induction rem as [|rem IH]; intros s Hn Hlt; [lia|].
  cbn [Jetflow.td_loop]. destruct (Jetflow.td_cond s); [|discriminate].
  destruct (Jetflow.td_body _ _ _ _ _ _ _ _ _ _) as [s1| |] eqn:Eb;
    cbn [bind]; [|discriminate|].
  - apply td_body_shape in Eb. destruct Eb as [En _].
    destruct (Nat.eqb (Jetflow.td_n s1) 10) eqn:E10; [discriminate|].
    apply Nat.eqb_neq in E10. apply IH; lia.
  - exfalso. unfold Jetflow.td_body in Eb.
    pose proof (throat_estimate_fuel pte tte kth ath mtm mom_nz mom_te prop_tm
                  (last_of (Jetflow.ptm_list s))) as Hf.
    destruct (Jetflow.throat_estimate _ _ _ _ _ _ _ _ _ _);
      [discriminate | discriminate | contradiction].
Qed.

End Throat.

(** C6: (1) when the throat equation evaluated at the throat-entry
    pressure has zero net momentum (outlet momentum plus the half-weighted
    friction momentum equal to nozzle plus entry momentum, the seed density
    taken at the throat-entry pressure and non-zero), and [mom_to_psi]
    turns zero momentum into zero pressure, the pressure drop is zero, the
    convergence test passes at once (no iteration, no warning) and
    [throat_discharge] returns the throat-entry pressure; (2) in general the
    loop runs at most 10 times, appends one estimate per iteration, stops
    below the cap only when the last two estimates differ by at most 5 psi,
    prints the warning exactly when the cap is reached, and
    [throat_discharge] returns the last estimate; (3) the loop always
    terminates. *)
Theorem throat_discharge_fixed_point {R : Type} {RM : ResMixOps R}
  (sp : SinglePhase) :
  (forall (pte tte kth vnz anz rho_nz vte ate rho_te : Q) (prop_tm : R),
     let rho_tm := rho_mix (condition prop_tm pte tte) in
     let ath := anz + ate in
     let mtm := massflow sp rho_nz vnz anz + massflow sp rho_te vte ate in
     let vtm := velocity sp (mtm / rho_tm) ath in
     let mom_tm := momentum sp rho_tm vtm ath in
     let mom_fr := 1 / 2 * kth * mom_tm in
     (forall m a, m == 0 -> mom_to_psi sp m a == 0) ->
     ~ rho_tm == 0 ->
     mom_tm + mom_fr == momentum sp rho_nz vnz anz + momentum sp rho_te vte ate ->
     exists ptm s,
       ptm == pte /\
       Jetflow.throat_discharge_loop sp pte tte kth vnz anz rho_nz vte ate
         rho_te prop_tm = Ok s /\
       Jetflow.td_n s = 0%nat /\
       Jetflow.ptm_list s = [pte; ptm] /\
       Jetflow.throat_discharge sp pte tte kth vnz anz rho_nz vte ate rho_te
         prop_tm = Ok (ptm, [])) /\
  (forall (pte tte kth vnz anz rho_nz vte ate rho_te : Q) (prop_tm : R) s,
     Jetflow.throat_discharge_loop sp pte tte kth vnz anz rho_nz vte ate
       rho_te prop_tm = Ok s ->
     (Jetflow.td_n s <= 10)%nat /\
     length (Jetflow.ptm_list s) = (Jetflow.td_n s + 2)%nat /\
     ((Jetflow.td_n s < 10)%nat ->
      Qabs (last_but_one (Jetflow.ptm_list s) - last_of (Jetflow.ptm_list s))
        <= 5 /\
      Jetflow.td_out s = []) /\
     (Jetflow.td_n s = 10%nat ->
      Jetflow.td_out s = ["Throat Mixture did not converge"%string]) /\
     Jetflow.throat_discharge sp pte tte kth vnz anz rho_nz vte ate rho_te
       prop_tm = Ok (last_of (Jetflow.ptm_list s), Jetflow.td_out s)) /\
  (forall (pte tte kth vnz anz rho_nz vte ate rho_te : Q) (prop_tm : R),
     Jetflow.throat_discharge sp pte tte kth vnz anz rho_nz vte ate rho_te
       prop_tm <> OutOfFuel).
Proof.
  split; [|split].
  - intros pte tte kth vnz anz rho_nz vte ate rho_te prop_tm
      rho_tm ath mtm vtm mom_tm mom_fr Hpsi Hrho Hbal.
    assert (Hdp : mom_to_psi sp
                    (mom_fr + mom_tm - momentum sp rho_nz vnz anz
                     - momentum sp rho_te vte ate) ath == 0).
    { apply Hpsi. lra. }
    remember (mom_to_psi sp
                (mom_fr + mom_tm - momentum sp rho_nz vnz anz
                 - momentum sp rho_te vte ate) ath) as dp eqn:Edp.
    assert (Hloop :
      Jetflow.throat_discharge_loop sp pte tte kth vnz anz rho_nz vte ate
        rho_te prop_tm
      = Ok {| Jetflow.ptm_list := [pte; pte - dp];
              Jetflow.td_n := 0; Jetflow.td_out := [] |}).
    { unfold Jetflow.throat_discharge_loop, Jetflow.throat_inlet_momentum,
        Jetflow.throat_estimate, Jetflow.throat_outlet_momentum.
      fold rho_tm ath mtm. rewrite (fdiv_ok _ _ Hrho). cbn [bind].
      fold vtm mom_tm mom_fr. rewrite <- Edp.
      cbn [Jetflow.td_loop].
      assert (Hc : Jetflow.td_cond
                     {| Jetflow.ptm_list := [pte; pte - dp];
                        Jetflow.td_n := 0; Jetflow.td_out := [] |} = false).
      { unfold Jetflow.td_cond. apply Qgtb_le.
        cbn [Jetflow.ptm_list last_but_one last_of removelast last].
        apply Qabs_Qle_condition. unfold Jetflow.ptm_diff. lra. }
      now rewrite Hc. }
    exists (pte - dp). eexists. split; [lra|]. split; [exact Hloop|].
    cbn. repeat split. unfold Jetflow.throat_discharge. now rewrite Hloop.
  - intros pte tte kth vnz anz rho_nz vte ate rho_te prop_tm s Hs.
    assert (Hd : Jetflow.throat_discharge sp pte tte kth vnz anz rho_nz vte
                   ate rho_te prop_tm
                 = Ok (last_of (Jetflow.ptm_list s), Jetflow.td_out s)).
    { unfold Jetflow.throat_discharge. now rewrite Hs. }
    unfold Jetflow.throat_discharge_loop in Hs. cbn zeta in Hs.
    unfold Jetflow.throat_inlet_momentum in Hs.
    destruct (Jetflow.throat_estimate _ _ _ _ _ _ _ _ _ _) as [ptm| |];
      try discriminate.
    cbn [bind] in Hs.
    apply td_loop_spec in Hs; [|reflexivity|reflexivity].
    cbn in Hs. destruct Hs as [H1 [H2 [H3 H4]]].
    repeat split; try lia; try exact Hd.
    + apply Qgtb_le. apply H3. assumption.
    + apply H3. assumption.
    + intro H10. apply H4; [lia | exact H10].
  - intros pte tte kth vnz anz rho_nz vte ate rho_te prop_tm.
    unfold Jetflow.throat_discharge, Jetflow.throat_discharge_loop.
    cbn zeta. unfold Jetflow.throat_inlet_momentum.
    match goal with |- context [Jetflow.throat_estimate ?a ?b ?c ?d ?e ?f ?g ?h ?i ?j] =>
      pose proof (throat_estimate_fuel a b c d e f g h i j) as Hf;
      destruct (Jetflow.throat_estimate a b c d e f g h i j) as [ptm| |] end;
      cbn [bind]; [|discriminate|contradiction].
    match goal with |- context [Jetflow.td_loop ?a ?b ?c ?d ?e ?f ?g ?h ?i ?j ?k] =>
      pose proof (td_loop_fuel a c d e f g h i j 10 k eq_refl) as Hl;
      destruct (Jetflow.td_loop a b c d e f g h i j k) end;
      cbn [bind]; [discriminate | discriminate |].
    exfalso. apply Hl; [cbn; lia | reflexivity].
Qed.

Lemma mom_to_psi_std_zero (m a : Q) :
  m == 0 -> mom_to_psi Examples.sp_std m a == 0.
Proof.
  intro H. cbn. unfold Qdiv. rewrite H. ring.
Qed.

Lemma throat_discharge_fixed_point_witness :
  exists ptm s,
    ptm == 500 /\
    Jetflow.throat_discharge_loop Examples.sp_std 500 80 0 1 1 1 1 1 1
      {| Examples.cm_rho := 1; Examples.cm_c := 1000 |} = Ok s /\
    Jetflow.td_n s = 0%nat /\
    Jetflow.ptm_list s = [500; ptm] /\
    Jetflow.throat_discharge Examples.sp_std 500 80 0 1 1 1 1 1 1
      {| Examples.cm_rho := 1; Examples.cm_c := 1000 |} = Ok (ptm, []).
Proof.
  apply (proj1 (throat_discharge_fixed_point Examples.sp_std)
           500 80 0 1 1 1 1 1 1
           {| Examples.cm_rho := 1; Examples.cm_c := 1000 |}).
  - exact mom_to_psi_std_zero.
  - discriminate.
  - reflexivity.
Defined.

(** A throat that does not converge within the cap: the estimates
    alternate between 482 and 492 psig, the warning is printed and the
    eleventh estimate returned. *)
Lemma throat_discharge_cap_example :
  exists s,
    Jetflow.throat_discharge_loop
      {| velocity := fun q a => q / a;
         momentum := fun rho v a => rho * v ^ 2 * a;
         massflow := fun rho v a => rho * v * a;
         mom_to_psi := fun mom a => mom;
         diff_press_static := fun rho h => rho * h / 144 |}
      500 80 0 1 1 1 1 1 1
      {| Examples.sm_p := 0; Examples.sm_hi := 1 # 10; Examples.sm_lo := 1 # 5 |}
    = Ok s /\
    Jetflow.td_n s = 10%nat /\
    map Qred (Jetflow.ptm_list s)
    = [500; 482; 492; 482; 492; 482; 492; 482; 492; 482; 492; 482] /\
    Jetflow.td_out s = ["Throat Mixture did not converge"%string].
Proof.
  eexists. split; [vm_compute; reflexivity|]. repeat split.
Qed.

(** ** The suction-pressure minimizer [tee_minimize] *)

Lemma npdiv_fuel (a b : Q) : npdiv a b <> OutOfFuel.
Proof. unfold npdiv. destruct (Qeq_bool b 0); discriminate. Qed.

Lemma gradient_from_interior (f0 f1 f2 x0 x1 x2 : Q) (f x : list Q) :
  Np.gradient_from (f0 :: f1 :: f2 :: f) (x0 :: x1 :: x2 :: x) =
  (a <- npdiv (- (x2 - x1)) ((x1 - x0) * ((x1 - x0) + (x2 - x1))) ;;
   b <- npdiv ((x2 - x1) - (x1 - x0)) ((x1 - x0) * (x2 - x1)) ;;
   c <- npdiv (x1 - x0) ((x2 - x1) * ((x1 - x0) + (x2 - x1))) ;;
   gs <- Np.gradient_from (f1 :: f2 :: f) (x1 :: x2 :: x) ;;
   Ok ((a * f0 + b * f1 + c * f2) :: gs)).
Proof. reflexivity. Qed.

Lemma gradient_from_fuel (f x : list Q) : Np.gradient_from f x <> OutOfFuel.
Proof.
  revert x. induction f as [|f0 f IH]; intros x; [discriminate|].
  destruct f as [|f1 [|f2 f]], x as [|x0 [|x1 [|x2 x]]];
    try discriminate.
  - cbn [Np.gradient_from].
    pose proof (npdiv_fuel (f1 - f0) (x1 - x0)) as H.
    destruct (npdiv _ _); cbn [bind];
      [discriminate | discriminate | contradiction].
  - specialize (IH (x1 :: x2 :: x)). rewrite gradient_from_interior.
    destruct (npdiv (- (x2 - x1)) _) eqn:Ea; cbn [bind];
      [|discriminate|now apply npdiv_fuel in Ea].
    destruct (npdiv (x2 - x1 - (x1 - x0)) _) eqn:Eb; cbn [bind];
      [|discriminate|now apply npdiv_fuel in Eb].
    destruct (npdiv (x1 - x0) _) eqn:Ec; cbn [bind];
      [|discriminate|now apply npdiv_fuel in Ec].
    destruct (Np.gradient_from (f1 :: f2 :: f) (x1 :: x2 :: x)); cbn [bind];
      [discriminate | discriminate | contradiction].
Qed.

Lemma gradient_fuel (f x : list Q) : Np.gradient f x <> OutOfFuel.
Proof.
  unfold Np.gradient. destruct (negb _); [discriminate|].
  destruct f as [|f0 [|f1 f]]; try discriminate.
  destruct x as [|x0 [|x1 x]]; try discriminate.
  destruct (npdiv (f1 - f0) (x1 - x0)) eqn:E0; cbn [bind];
    [|discriminate|now apply npdiv_fuel in E0].
  pose proof (gradient_from_fuel (f0 :: f1 :: f) (x0 :: x1 :: x)) as H.
  destruct (Np.gradient_from _ _); cbn [bind];
    [discriminate | discriminate | contradiction].
Qed.

Lemma bool_index_fuel (a : list Q) (m : list bool) :
  Np.bool_index a m <> OutOfFuel.
Proof. unfold Np.bool_index. destruct (Nat.eqb _ _); discriminate. Qed.

Ltac step_fuel H :=
  match goal with
  | |- bind ?c _ <> OutOfFuel =>
      let E := fresh "E" in
      pose proof (H : c <> OutOfFuel) as E;
      destruct c; cbn [bind]; [|discriminate|contradiction]; clear E
  end.

Lemma tee_zero_fuel (pte_ray rho_ray vte_ray tee_ray : list Q) :
  Jetflow.tee_zero pte_ray rho_ray vte_ray tee_ray <> OutOfFuel.
Proof.
  unfold Jetflow.tee_zero, Jetflow.tee_positive_slope.
  pose proof (gradient_fuel tee_ray pte_ray) as Hg.
  destruct (Np.gradient tee_ray pte_ray); cbn [bind];
    [|discriminate|contradiction].
  step_fuel (bool_index_fuel tee_ray (map (fun d => Qgeb d 0) a)).
  step_fuel (bool_index_fuel pte_ray (map (fun d => Qgeb d 0) a)).
  step_fuel (interp_fuel 0 (Np.flip a0) (Np.flip a1)).
  step_fuel (bool_index_fuel rho_ray (map (fun d => Qgeb d 0) a)).
  step_fuel (interp_fuel 0 (Np.flip a0) (Np.flip a3)).
  step_fuel (bool_index_fuel vte_ray (map (fun d => Qgeb d 0) a)).
  step_fuel (interp_fuel 0 (Np.flip a0) (Np.flip a5)).
  discriminate.
Qed.

Lemma psu_secant_fuel (a b c d : Q) : Jetflow.psu_secant a b c d <> OutOfFuel.
Proof.
  unfold Jetflow.psu_secant. step_fuel (fdiv_fuel (d * (a - b)) (c - d)).
  discriminate.
Qed.

Section Minimizer.

Context {R : Type} {RM : ResMixOps R}.
Variable sp : SinglePhase.

Lemma tm_body_shape (tsu ken ate : Q) (ipr_su : InFlow) (prop_su : R)
  (s s' : Jetflow.tm_locals) :
  Jetflow.tm_body sp tsu ken ate ipr_su prop_su s = Ok s' ->
  Jetflow.tm_n s' = S (Jetflow.tm_n s) /\
  Jetflow.tm_out s' = Jetflow.tm_out s /\
  Jetflow.tm_bound s' <> None /\
  exists psu_nxt,
    Jetflow.psu_secant (last_but_one (Jetflow.psu_list s))
      (last_of (Jetflow.psu_list s)) (last_but_one (Jetflow.tee_list s))
      (last_of (Jetflow.tee_list s)) = Ok psu_nxt /\
    Jetflow.psu_list s' = Jetflow.psu_list s ++ [psu_nxt].
Proof.
  unfold Jetflow.tm_body.
  destruct (Jetflow.psu_secant _ _ _ _) as [psu_nxt| |]; try discriminate.
  cbn [bind].
  destruct (Jetflow.tee_last _ _ _ _ _ _ _) as [[[[[[t q] a] b] c] d]| |];
    try discriminate.
  cbn [bind]. intro H. injection H as <-. cbn.
  repeat split; try lia; try discriminate.
  exists psu_nxt. split; reflexivity.
Qed.

Lemma tm_body_fuel (tsu ken ate : Q) (ipr_su : InFlow) (prop_su : R)
  (s : Jetflow.tm_locals) :
  Jetflow.tm_body sp tsu ken ate ipr_su prop_su s <> OutOfFuel.
Proof.
  unfold Jetflow.tm_body.
  step_fuel (psu_secant_fuel (last_but_one (Jetflow.psu_list s))
               (last_of (Jetflow.psu_list s))
               (last_but_one (Jetflow.tee_list s))
               (last_of (Jetflow.tee_list s))).
  step_fuel (tee_last_terminates sp a tsu ken ate ipr_su prop_su).
  destruct a0 as [[[[[t q] b] c] d] e]. discriminate.
Qed.

(** What the secant loop leaves: the earlier guesses, at most 10
    iterations, one guess appended per iteration, convergence below the
    cap, the warning at the cap. *)
Lemma tm_loop_spec (tsu ken ate : Q) (ipr_su : InFlow) (prop_su : R)
  (rem : nat) :
  forall s s',
    (Jetflow.tm_n s + rem = 10)%nat ->
    Jetflow.tm_out s = [] ->
    Jetflow.tm_loop sp rem tsu ken ate ipr_su prop_su s = Ok s' ->
    (Jetflow.tm_n s <= Jetflow.tm_n s' <= 10)%nat /\
    (length (Jetflow.psu_list s') - Jetflow.tm_n s'
     = length (Jetflow.psu_list s) - Jetflow.tm_n s)%nat /\
    (length (Jetflow.psu_list s) <= length (Jetflow.psu_list s'))%nat /\
    firstn (length (Jetflow.psu_list s)) (Jetflow.psu_list s')
    = Jetflow.psu_list s /\
    ((Jetflow.tm_n s' < 10)%nat ->
     Jetflow.tm_cond s' = false /\ Jetflow.tm_out s' = []) /\
    ((Jetflow.tm_n s < 10)%nat -> Jetflow.tm_n s' = 10%nat ->
     Jetflow.tm_out s' = ["TEE Minimization did not converge"%string]) /\
    (Jetflow.tm_cond s = true ->
     (Jetflow.tm_n s < Jetflow.tm_n s')%nat /\ Jetflow.tm_bound s' <> None).
Proof.
  induction rem as [|rem IH]; intros s s' Hn Hout Hrun;
    cbn [Jetflow.tm_loop] in Hrun;
    destruct (Jetflow.tm_cond s) eqn:Ec; try discriminate.
  - injection Hrun as <-. rewrite firstn_all.
    repeat split; try lia; try assumption; try discriminate.
  - destruct (Jetflow.tm_body _ _ _ _ _ _ _) as [s1| |] eqn:Eb;
      try discriminate.
    cbn [bind] in Hrun. apply tm_body_shape in Eb.
    destruct Eb as [En [Eo [Eb [psu_nxt [_ El]]]]].
    assert (Hpre : firstn (length (Jetflow.psu_list s)) (Jetflow.psu_list s1)
                   = Jetflow.psu_list s).
    { rewrite El, firstn_app, Nat.sub_diag, firstn_all. cbn.
      now rewrite app_nil_r. }
    assert (Hlen : length (Jetflow.psu_list s1)
                   = S (length (Jetflow.psu_list s))).
    { rewrite El, length_app. cbn. lia. }
    destruct (Nat.eqb (Jetflow.tm_n s1) 10) eqn:E10.
    + apply Nat.eqb_eq in E10. injection Hrun as <-. cbn.
      repeat split; try lia; try assumption.
      intros _ _. now rewrite Eo, Hout.
    + apply Nat.eqb_neq in E10.
      destruct (IH s1 s') as [H1 [H2 [H3 [H4 [H5 [H6 H7]]]]]];
        try assumption; try lia.
      { congruence. }
      repeat split; try lia; try (apply H5; assumption).
      * rewrite <- Hpre at 2. rewrite <- H4.
        rewrite firstn_firstn. f_equal. lia.
      * intros _ Hs'. apply H6; lia.
      * destruct (Jetflow.tm_cond s1) eqn:Ec1.
        -- now apply H7.
        -- clear IH. destruct rem; cbn [Jetflow.tm_loop] in Hrun;
             rewrite Ec1 in Hrun; injection Hrun as <-; exact Eb.
  - injection Hrun as <-. rewrite firstn_all.
    repeat split; try lia; try assumption; try discriminate.
Qed.

Lemma tm_loop_fuel (tsu ken ate : Q) (ipr_su : InFlow) (prop_su : R)
  (rem : nat) :
  forall s,
    (Jetflow.tm_n s + rem = 10)%nat -> (Jetflow.tm_n s < 10)%nat ->
    Jetflow.tm_loop sp rem tsu ken ate ipr_su prop_su s <> OutOfFuel.
Proof.
  induction rem as [|rem IH]; intros s Hn Hlt; [lia|].
  cbn [Jetflow.tm_loop]. destruct (Jetflow.tm_cond s); [|discriminate].
  pose proof (tm_body_fuel tsu ken ate ipr_su prop_su s) as Hb.
  destruct (Jetflow.tm_body _ _ _ _ _ _ _) as [s1| |] eqn:Eb;
    cbn [bind]; [|discriminate|contradiction].
  apply tm_body_shape in Eb. destruct Eb as [En _].
  destruct (Nat.eqb (Jetflow.tm_n s1) 10) eqn:E10; [discriminate|].
  apply Nat.eqb_neq in E10. apply IH; lia.
Qed.

Lemma tee_minimize_loop_fuel (tsu ken ate : Q) (ipr_su : InFlow) (prop_su : R) :
  Jetflow.tee_minimize_loop sp tsu ken ate ipr_su prop_su <> OutOfFuel.
Proof.
  unfold Jetflow.tee_minimize_loop. cbn [nth].
  step_fuel (tee_last_terminates sp (pres ipr_su - 300) tsu ken ate
               ipr_su prop_su).
  destruct a as [[[[[t0 q0] a0] b0] c0] d0].
  step_fuel (tee_last_terminates sp (pres ipr_su - 400) tsu ken ate
               ipr_su prop_su).
  destruct a as [[[[[t1 q1] a1] b1] c1] d1].
  apply tm_loop_fuel; cbn; lia.
Qed.

End Minimizer.




(** ** [np.interp] *)

Lemma interpolated_at_cons (x a b : Q) (xs ys : list Q) (y : Q) :
  interpolated_at x xs ys y -> interpolated_at x (a :: xs) (b :: ys) y.
Proof.
  intros [[j [x0 [x1 [y0 [y1 H]]]]] | [j [x0 H]]].
  - left. exists (S j), x0, x1, y0, y1. exact H.
  - right. exists (S j), x0. exact H.
Qed.

Lemma interp_scan_spec (x : Q) (xs : list Q) :
  forall (ys : list Q) (x0 y0 : Q),
    length xs = length ys -> x0 <= x -> x <= last (x0 :: xs) 0 ->
    interpolated_at x (x0 :: xs) (y0 :: ys)
      (Np.interp_scan x x0 y0 (combine xs ys)).
Proof.
  induction xs as [|x1 xs IH]; intros ys x0 y0 Hlen Hlo Hhi.
  - cbn in Hhi. cbn. right. exists 0%nat, x0. repeat split. lra.
  - destruct ys as [|y1 ys]; [discriminate|].
    cbn [combine Np.interp_scan].
    destruct (Qleb x1 x) eqn:E1.
    + apply Qleb_le in E1. apply interpolated_at_cons.
      apply IH; [now injection Hlen | exact E1 | exact Hhi].
    + apply Qleb_gt in E1.
      destruct (Qeq_bool x0 x) eqn:E0.
      * apply Qeq_bool_eq in E0. right. exists 0%nat, x0. now repeat split.
      * apply Qeq_bool_neq in E0. left.
        exists 0%nat, x0, x1, y0, y1. repeat split; try assumption.
        apply Qle_lteq in Hlo. destruct Hlo as [Hlt | Heq];
          [exact Hlt | contradiction].
Qed.

(** [np.interp] on non-empty samples of equal length returns: the last
    value right of the samples, the first value left of them, and a linear
    interpolation or a sample value in between. *)
Lemma interp_spec (x : Q) (xp fp : list Q) :
  xp <> [] -> length xp = length fp ->
  exists y,
    Np.interp x xp fp = Ok y /\
    (last_of xp < x -> y = last_of fp) /\
    (x <= last_of xp -> x < hd 0 xp -> y = hd 0 fp) /\
    (hd 0 xp <= x -> x <= last_of xp -> interpolated_at x xp fp y).
Proof.
  intros Hne Hlen. destruct xp as [|x0 xs]; [contradiction|].
  destruct fp as [|y0 ys]; [discriminate|].
  unfold Np.interp. rewrite Hlen, Nat.eqb_refl. cbn [negb hd].
  destruct (Qltb (last_of (x0 :: xs)) x) eqn:Er.
  - apply Qltb_lt in Er. eexists. split; [reflexivity|].
    repeat split; intros; try reflexivity; lra.
  - apply Qltb_ge in Er. destruct (Qltb x x0) eqn:El.
    + apply Qltb_lt in El. eexists. split; [reflexivity|].
      repeat split; intros; try reflexivity; lra.
    + apply Qltb_ge in El. eexists. split; [reflexivity|].
      repeat split; intros; try lra.
      apply interp_scan_spec; [now injection Hlen | exact El | exact Er].
Qed.

(** ** The zero-crossing lookup [tee_zero] *)

Lemma gradient_from_length (f : list Q) :
  forall x gs,
    Np.gradient_from f x = Ok gs -> length x = length f ->
    (2 <= length f)%nat -> S (length gs) = length f.
Proof.
  induction f as [|f0 f IH]; intros x gs Hg Hlen H2; [cbn in H2; lia|].
  destruct f as [|f1 [|f2 f]], x as [|x0 [|x1 [|x2 x]]];
    try discriminate; try (cbn in H2; lia).
  - cbn [Np.gradient_from] in Hg.
    destruct (npdiv _ _); try discriminate. cbn in Hg.
    now injection Hg as <-.
  - rewrite gradient_from_interior in Hg.
    destruct (npdiv (- (x2 - x1)) _); try discriminate. cbn [bind] in Hg.
    destruct (npdiv (x2 - x1 - (x1 - x0)) _); try discriminate.
    cbn [bind] in Hg.
    destruct (npdiv (x1 - x0) _); try discriminate. cbn [bind] in Hg.
    destruct (Np.gradient_from (f1 :: f2 :: f) (x1 :: x2 :: x)) as [gs'| |]
      eqn:Eg; try discriminate.
    cbn [bind] in Hg. injection Hg as <-.
    apply IH in Eg; [|cbn in *; lia|cbn; lia].
    cbn [length] in *. lia.
Qed.

Lemma gradient_length (f x g : list Q) :
  Np.gradient f x = Ok g ->
  length g = length f /\ length x = length f /\ (2 <= length f)%nat.
Proof.
  unfold Np.gradient. destruct (Nat.eqb (length x) (length f)) eqn:El;
    [|discriminate].
  apply Nat.eqb_eq in El. cbn [negb].
  destruct f as [|f0 [|f1 f]]; try discriminate.
  destruct x as [|x0 [|x1 x]]; try discriminate.
  destruct (npdiv (f1 - f0) (x1 - x0)); try discriminate. cbn [bind].
  destruct (Np.gradient_from _ _) as [gs| |] eqn:Eg; try discriminate.
  cbn [bind]. intro H. injection H as <-.
  apply gradient_from_length in Eg; [|exact El|cbn; lia].
  cbn [length] in *. repeat split; lia.
Qed.

Lemma select_length (m : list bool) :
  forall a b : list Q,
    length a = length m -> length b = length m ->
    length (Np.select a m) = length (Np.select b m).
Proof.
  induction m as [|c m IH]; intros a b Ha Hb.
  - destruct a, b; try discriminate. reflexivity.
  - destruct a as [|v a], b as [|w b]; try discriminate.
    cbn [Np.select]. injection Ha as Ha. injection Hb as Hb.
    destruct c; cbn [length]; [f_equal|]; now apply IH.
Qed.

Lemma bool_index_ok (a : list Q) (m : list bool) :
  length a = length m -> Np.bool_index a m = Ok (Np.select a m).
Proof.
  intro H. unfold Np.bool_index. now rewrite H, Nat.eqb_refl.
Qed.

Lemma Forall_hd_last (P : Q -> Prop) (l : list Q) :
  l <> [] -> Forall P l -> P (hd 0 l) /\ P (last_of l).
Proof.
  intros Hne Hall. split.
  - destruct l; [contradiction|]. now inversion Hall.
  - unfold last_of. rewrite Forall_forall in Hall. apply Hall.
    destruct l as [|x l]; [contradiction|].
    rewrite (app_removelast_last 0 (l := x :: l)) at 2 by discriminate.
    apply in_or_app. right. now left.
Qed.

Lemma tee_positive_slope_length (pte_ray tee_ray : list Q) (mask : list bool) :
  Jetflow.tee_positive_slope pte_ray tee_ray = Ok mask ->
  length mask = length tee_ray /\ length pte_ray = length tee_ray.
Proof.
  unfold Jetflow.tee_positive_slope.
  destruct (Np.gradient tee_ray pte_ray) as [g| |] eqn:Eg; try discriminate.
  cbn [bind]. intro H. injection H as <-.
  apply gradient_length in Eg. rewrite length_map. split; apply Eg.
Qed.




(** ** The diffuser search and its friction factor *)

Lemma crossing_bounds (d' dl p' pl : Q) :
  d' < 0 -> p' <= pl ->
  p' <= crossing d' dl p' pl /\ crossing d' dl p' pl <= pl.
Proof.
  intros Hd Hp. unfold crossing.
  destruct (Qltb dl 0) eqn:E1; [split; lra|].
  destruct (Qleb dl 0) eqn:E2; [split; lra|].
  apply Qleb_gt in E2.
  assert (HD : 0 < dl - d') by lra.
  assert (Ht0 : 0 <= (0 - d') / (dl - d')).
  { apply Qle_shift_div_l; [exact HD | lra]. }
  assert (Ht1 : (0 - d') / (dl - d') <= 1).
  { apply Qle_shift_div_r; [exact HD | lra]. }
  assert (Heq : (pl - p') / (dl - d') * (0 - d') + p'
                == (pl - p') * ((0 - d') / (dl - d')) + p').
  { field. lra. }
  rewrite Heq. clear Heq.
  generalize dependent ((0 - d') / (dl - d')). intros t Ht0 Ht1.
  split; nra.
Qed.

Lemma crossing_antitone (c d1 d2 dl1 dl2 p' pl : Q) :
  0 <= c -> d1 < 0 -> d2 < 0 -> d2 == d1 + c -> dl2 == dl1 + c -> p' <= pl ->
  crossing d2 dl2 p' pl <= crossing d1 dl1 p' pl.
Proof.
  intros Hc Hd1 Hd2 Ed El Hp.
  destruct (crossing_bounds d2 dl2 p' pl Hd2 Hp) as [_ Hup].
  unfold crossing at 2.
  destruct (Qltb dl1 0) eqn:E1; [exact Hup|].
  destruct (Qleb dl1 0) eqn:E2; [exact Hup|].
  apply Qleb_gt in E2. unfold crossing.
  assert (E3 : Qltb dl2 0 = false) by (apply Qltb_ge; lra).
  assert (E4 : Qleb dl2 0 = false) by (apply Qleb_gt; lra).
  rewrite E3, E4.
  assert (HD : 0 < dl1 - d1) by lra.
  assert (Heq2 : (pl - p') / (dl2 - d2) * (0 - d2) + p'
                 == (pl - p') * ((0 - d1 - c) / (dl1 - d1)) + p').
  { rewrite Ed, El. field. lra. }
  assert (Heq1 : (pl - p') / (dl1 - d1) * (0 - d1) + p'
                 == (pl - p') * ((0 - d1) / (dl1 - d1)) + p').
  { field. lra. }
  rewrite Heq1, Heq2. clear Heq1 Heq2 Hup.
  assert (Ht : (0 - d1 - c) / (dl1 - d1) <= (0 - d1) / (dl1 - d1)).
  { apply Qle_shift_div_l; [exact HD|].
    assert (Hm : (0 - d1 - c) / (dl1 - d1) * (dl1 - d1) == 0 - d1 - c)
      by (field; lra).
    rewrite Hm. lra. }
  generalize dependent ((0 - d1 - c) / (dl1 - d1)). intros t2.
  generalize ((0 - d1) / (dl1 - d1)). intros t1 Ht. nra.
Qed.

(** The search of [np.interp] over a trace whose energies before the last
    are negative. *)
Lemma interp_scan_negative (dl pl : Q) (rd : list Q) :
  forall (rp : list Q) (a b : Q),
    length rd = length rp -> a < 0 -> Forall (fun e => e < 0) rd ->
    Np.interp_scan 0 a b (combine (rd ++ [dl]) (rp ++ [pl])) =
    if Qleb dl 0 then pl
    else (pl - last_of (b :: rp)) / (dl - last_of (a :: rd))
         * (0 - last_of (a :: rd)) + last_of (b :: rp).
Proof.
  induction rd as [|c rd IH]; intros rp a b Hlen Ha Hneg.
  - destruct rp; [|discriminate]. cbn.
    destruct (Qleb dl 0); [reflexivity|].
    assert (E : Qeq_bool a 0 = false).
    { destruct (Qeq_bool a 0) eqn:E; [|reflexivity].
      apply Qeq_bool_eq in E. lra. }
    now rewrite E.
  - destruct rp as [|d rp]; [discriminate|].
    inversion Hneg as [|c' rd' Hc Hrd]; subst.
    cbn [app combine Np.interp_scan].
    assert (E : Qleb c 0 = true) by (apply Qleb_le; lra).
    rewrite E. rewrite IH; [|now injection Hlen|exact Hc|exact Hrd].
    reflexivity.
Qed.

Section Diffuser.

Context {R : Type} {RM : ResMixOps R}.
Variable sp : SinglePhase.

Lemma di_body_push (ttm kdi adi qoil_std vtm : Q) (s : Jetflow.di_locals (R := R)) :
  Jetflow.di_body sp ttm kdi adi qoil_std vtm s =
  (inc <- Jetflow.incremental_ee
            (last2 (Jetflow.pdi_ray s
                    ++ [last_of (Jetflow.pdi_ray s) + Jetflow.pinc]))
            (last2 (Jetflow.di_rho_ray s
                    ++ [rho_mix (condition (Jetflow.di_prop s)
                                   (last_of (Jetflow.pdi_ray s) + Jetflow.pinc)
                                   ttm)])) ;;
   Ok (di_push sp ttm kdi adi qoil_std vtm s inc)).
Proof. reflexivity. Qed.

Lemma shape_nd_last (ptm : Q) (s : Jetflow.di_locals (R := R)) pre_d pre_p dl pl :
  di_shape ptm s pre_d pre_p dl pl -> Np.nd_last (Jetflow.dte_ray s) = dl.
Proof.
  intros [[[_ E] | [_ E]] _ _ _ _ _]; rewrite E; cbn.
  - reflexivity.
  - apply last_of_snoc.
Qed.

Lemma shape_cond (ptm : Q) (s : Jetflow.di_locals (R := R)) pre_d pre_p dl pl :
  di_shape ptm s pre_d pre_p dl pl ->
  (Jetflow.di_cond s = true <-> dl < 0).
Proof.
  intro H. unfold Jetflow.di_cond. rewrite (shape_nd_last _ _ _ _ _ _ H).
  apply Qltb_lt.
Qed.

Lemma di_push_shape (ptm ttm kdi adi qoil_std vtm inc : Q)
  (s : Jetflow.di_locals (R := R)) pre_d pre_p dl pl :
  di_shape ptm s pre_d pre_p dl pl -> dl < 0 ->
  di_shape ptm (di_push sp ttm kdi adi qoil_std vtm s inc)
    (pre_d ++ [dl]) (pre_p ++ [pl])
    (dte_next sp ttm kdi adi qoil_std vtm s pl inc) (pl + 100).
Proof.
  intros Hs Hdl. pose proof (shape_nd_last _ _ _ _ _ _ Hs) as Hlast.
  destruct Hs as [Harr Hpdi Hlen Hneg Hpl Hpp].
  assert (Hlp : last_of (Jetflow.pdi_ray s) = pl).
  { rewrite Hpdi. apply last_of_snoc. }
  assert (Hrav : Np.ravel (Jetflow.dte_ray s) = pre_d ++ [dl]).
  { destruct Harr as [[-> E] | [_ E]]; rewrite E; reflexivity. }
  constructor.
  - right. split; [intro E; now destruct pre_d|].
    unfold di_push, Np.append, dte_next. cbn [Jetflow.dte_ray].
    rewrite Hrav, !last_of_snoc, Hlp. reflexivity.
  - unfold di_push. cbn [Jetflow.pdi_ray]. now rewrite Hlp, Hpdi.
  - rewrite !length_app. cbn. lia.
  - apply Forall_app. split; [exact Hneg | now constructor].
  - rewrite length_app. cbn [length].
    rewrite Nat2Z.inj_add, inject_Z_plus. cbn [Z.of_nat inject_Z].
    change (inject_Z (Z.pos (Pos.of_succ_nat 0))) with 1. lra.
  - intros _. rewrite last_of_snoc, length_app. cbn [length].
    replace (length pre_p + 1 - 1)%nat with (length pre_p) by lia.
    exact Hpl.
Qed.

Lemma di_push_length (ttm kdi adi qoil_std vtm inc : Q) (s : Jetflow.di_locals (R := R)) :
  length (Jetflow.pdi_ray (di_push sp ttm kdi adi qoil_std vtm s inc))
  = S (length (Jetflow.pdi_ray s)).
Proof. cbn. rewrite length_app. cbn. lia. Qed.

Lemma di_init_shape (ptm ttm kdi ath adi qoil_std : Q) (prop_tm : R) :
  exists dl,
    di_shape ptm (snd (Jetflow.di_init sp ptm ttm kdi ath adi qoil_std prop_tm))
      [] [] dl ptm /\
    dl = Jetflow.diffuser_ke kdi
           (fst (Jetflow.di_init sp ptm ttm kdi ath adi qoil_std prop_tm))
           (velocity sp (py_sum (insitu_volm_flow (condition prop_tm ptm ttm)
                                   qoil_std)) adi) + 0.
Proof.
  eexists. split; [|reflexivity].
  constructor; cbn; try reflexivity.
  - left. split; reflexivity.
  - constructor.
  - unfold inject_Z. lra.
  - intro H. contradiction.
Qed.

Lemma di_warn_shape (ptm : Q) (s : Jetflow.di_locals (R := R)) pre_d pre_p dl pl :
  di_shape ptm s pre_d pre_p dl pl ->
  di_shape ptm (Jetflow.di_warn s) pre_d pre_p dl pl.
Proof. intros [H1 H2 H3 H4 H5 H6]. constructor; assumption. Qed.

(** A search leaves a shaped trace, no shorter than it found it. *)
Lemma di_loop_shaped (ptm ttm kdi adi qoil_std vtm : Q) (rem : nat) :
  forall s f,
    di_shaped ptm s ->
    Jetflow.di_loop sp rem ttm kdi adi qoil_std vtm s = Ok f ->
    di_shaped ptm f /\
    (length (Jetflow.pdi_ray s) <= length (Jetflow.pdi_ray f))%nat /\
    (Jetflow.di_cond s = true ->
     (length (Jetflow.pdi_ray s) < length (Jetflow.pdi_ray f))%nat).
Proof.
  induction rem as [|rem IH]; intros s f Hs Hrun;
    cbn [Jetflow.di_loop] in Hrun;
    destruct (Jetflow.di_cond s) eqn:Ec; try discriminate.
  - injection Hrun as <-. repeat split; [exact Hs | lia | discriminate].
  - rewrite di_body_push in Hrun.
    destruct (Jetflow.incremental_ee _ _) as [inc| |]; try discriminate.
    cbn [bind] in Hrun.
    destruct Hs as [pre_d [pre_p [dl [pl Hs]]]].
    assert (Hdl : dl < 0) by (now apply (shape_cond _ _ _ _ _ _ Hs)).
    pose proof (di_push_shape ptm ttm kdi adi qoil_std vtm inc s _ _ _ _ Hs Hdl)
      as Hs'.
    pose proof (di_push_length ttm kdi adi qoil_std vtm inc s) as Hl.
    destruct (Nat.eqb _ 15).
    + injection Hrun as <-. apply di_warn_shape in Hs'.
      repeat split; [do 4 eexists; exact Hs' | cbn in *; lia | cbn in *; lia].
    + apply IH in Hrun; [|do 4 eexists; exact Hs'].
      destruct Hrun as [Hf [Hle _]]. repeat split; [exact Hf | lia | lia].
  - injection Hrun as <-. repeat split; [exact Hs | lia | discriminate].
Qed.

(** On a shaped trace the final [np.interp] raises when no step was taken
    and returns the crossing otherwise. *)
Lemma shape_interp (ptm : Q) (s : Jetflow.di_locals (R := R)) pre_d pre_p dl pl :
  di_shape ptm s pre_d pre_p dl pl ->
  (pre_d = [] ->
   Np.interp_nd 0 (Jetflow.dte_ray s) (Np.Arr1 (Jetflow.pdi_ray s))
   = Raise ValueError) /\
  (pre_d <> [] ->
   Np.interp_nd 0 (Jetflow.dte_ray s) (Np.Arr1 (Jetflow.pdi_ray s))
   = Ok (crossing (last_of pre_d) dl (last_of pre_p) pl)).
Proof.
  intros [Harr Hpdi Hlen Hneg Hpl Hpp]. split; intro Hpre.
  - destruct Harr as [[_ E] | [Hne _]]; [|contradiction]. now rewrite E.
  - destruct Harr as [[E _] | [_ E]]; [contradiction|].
    rewrite E, Hpdi. cbn [Np.interp_nd].
    destruct pre_d as [|a rd]; [contradiction|].
    destruct pre_p as [|b rp]; [discriminate|].
    inversion Hneg as [|a' rd' Ha Hrd]; subst.
    unfold Np.interp. cbn [app].
    assert (Hl : length (a :: rd ++ [dl]) = length (b :: rp ++ [pl])).
    { cbn [length]. rewrite !length_app. cbn in *. lia. }
    rewrite Hl, Nat.eqb_refl. cbn [negb].
    change (a :: rd ++ [dl]) with ((a :: rd) ++ [dl]).
    change (b :: rp ++ [pl]) with ((b :: rp) ++ [pl]).
    rewrite !last_of_snoc. unfold crossing.
    destruct (Qltb dl 0) eqn:E1; [reflexivity|].
    assert (E0 : Qltb 0 a = false) by (apply Qltb_ge; lra).
    rewrite E0. f_equal.
    apply interp_scan_negative; [now injection Hlen | exact Ha | exact Hrd].
Qed.

End Diffuser.

Section DiffuserFriction.

Context {R : Type} {RM : ResMixOps R}.
Variable sp : SinglePhase.
Variables (c ptm ttm kdi1 kdi2 adi qoil_std vtm : Q).
Hypothesis Hc0 : 0 <= c.
Hypothesis Hc : c == (kdi2 - kdi1) * vtm ^ 2 / 2.

Lemma di_rel_pdi (s1 s2 : Jetflow.di_locals (R := R)) :
  di_rel c ptm s1 s2 -> Jetflow.pdi_ray s1 = Jetflow.pdi_ray s2.
Proof.
  intros [_ [_ [_ [_ [pre1 [pre2 [pre_p [dl1 [dl2 [pl [H1 [H2 _]]]]]]]]]]]].
  now rewrite (sh_pdi _ _ _ _ _ _ H1), (sh_pdi _ _ _ _ _ _ H2).
Qed.

Lemma di_rel_shaped (s1 s2 : Jetflow.di_locals (R := R)) :
  di_rel c ptm s1 s2 -> di_shaped ptm s1 /\ di_shaped ptm s2.
Proof.
  intros [_ [_ [_ [_ [pre1 [pre2 [pre_p [dl1 [dl2 [pl [H1 [H2 _]]]]]]]]]]]].
  split; do 4 eexists; eassumption.
Qed.

Lemma di_rel_warn (s1 s2 : Jetflow.di_locals (R := R)) :
  di_rel c ptm s1 s2 -> di_rel c ptm (Jetflow.di_warn s1) (Jetflow.di_warn s2).
Proof.
  intros [Hp [Hr [He [Hn [pre1 [pre2 [pre_p [dl1 [dl2 [pl [H1 [H2 H3]]]]]]]]]]]].
  repeat split; try assumption.
  exists pre1, pre2, pre_p, dl1, dl2, pl.
  split; [now apply di_warn_shape|]. split; [now apply di_warn_shape|].
  exact H3.
Qed.

Lemma di_rel_push (s1 s2 : Jetflow.di_locals (R := R)) (inc : Q) :
  di_rel c ptm s1 s2 ->
  Jetflow.di_cond s2 = true ->
  di_rel c ptm (di_push sp ttm kdi1 adi qoil_std vtm s1 inc)
    (di_push sp ttm kdi2 adi qoil_std vtm s2 inc).
Proof.
  intros Hrel Hc2. pose proof (di_rel_pdi _ _ Hrel) as Hpdi.
  destruct Hrel
    as [Hp [Hr [He [Hn [pre1 [pre2 [pre_p [dl1 [dl2 [pl [H1 [H2 [Hd Hl]]]]]]]]]]]]].
  assert (Hdl2 : dl2 < 0) by (now apply (shape_cond _ _ _ _ _ _ H2)).
  assert (Hdl1 : dl1 < 0) by lra.
  repeat split.
  - unfold di_push. cbn [Jetflow.di_prop]. now rewrite Hp, Hpdi.
  - unfold di_push. cbn [Jetflow.di_rho_ray]. now rewrite Hp, Hpdi, Hr.
  - unfold di_push. cbn [Jetflow.di_ese_ray]. now rewrite He.
  - unfold di_push. cbn [Jetflow.di_n]. now rewrite Hn.
  - exists (pre1 ++ [dl1]), (pre2 ++ [dl2]), (pre_p ++ [pl]),
      (dte_next sp ttm kdi1 adi qoil_std vtm s1 pl inc),
      (dte_next sp ttm kdi2 adi qoil_std vtm s2 pl inc), (pl + 100).
    split; [now apply di_push_shape|]. split; [now apply di_push_shape|].
    split.
    + unfold dte_next. rewrite Hp, He.
      generalize (velocity sp
                    (py_sum (insitu_volm_flow
                               (condition (Jetflow.di_prop s2)
                                  (pl + Jetflow.pinc) ttm) qoil_std)) adi).
      intro vdi. unfold Jetflow.diffuser_ke. rewrite Hc. field.
    + intros _. rewrite !last_of_snoc. exact Hd.
Qed.

(** Two searches that differ in the friction factor run in step until the
    one of the larger factor stops; the other may go on. *)
Lemma di_lockstep (rem : nat) :
  forall s1 s2 f1 f2,
    di_rel c ptm s1 s2 ->
    Jetflow.di_loop sp rem ttm kdi1 adi qoil_std vtm s1 = Ok f1 ->
    Jetflow.di_loop sp rem ttm kdi2 adi qoil_std vtm s2 = Ok f2 ->
    di_rel c ptm f1 f2 \/
    (di_shaped ptm f1 /\ di_shaped ptm f2 /\
     (length (Jetflow.pdi_ray f2) < length (Jetflow.pdi_ray f1))%nat).
Proof.
  induction rem as [|rem IH]; intros s1 s2 f1 f2 Hrel Hr1 Hr2.
  - cbn [Jetflow.di_loop] in Hr1, Hr2.
    destruct (Jetflow.di_cond s1); [discriminate|].
    destruct (Jetflow.di_cond s2); [discriminate|].
    injection Hr1 as <-. injection Hr2 as <-. now left.
  - destruct (Jetflow.di_cond s2) eqn:Ec2.
    + assert (Ec1 : Jetflow.di_cond s1 = true).
      { destruct Hrel
          as [_ [_ [_ [_ [pre1 [pre2 [pre_p [dl1 [dl2 [pl [H1 [H2 [Hd _]]]]]]]]]]]]].
        apply (shape_cond _ _ _ _ _ _ H1).
        apply (shape_cond _ _ _ _ _ _ H2) in Ec2. lra. }
      cbn [Jetflow.di_loop] in Hr1, Hr2. rewrite Ec1 in Hr1. rewrite Ec2 in Hr2.
      rewrite di_body_push in Hr1, Hr2.
      pose proof (di_rel_pdi _ _ Hrel) as Hpdi.
      pose proof Hrel as [Hp [Hr [_ [Hn _]]]].
      rewrite <- Hpdi, <- Hr, <- Hp in Hr2.
      destruct (Jetflow.incremental_ee _ _) as [inc| |]; try discriminate.
      cbn [bind] in Hr1, Hr2.
      pose proof (di_rel_push s1 s2 inc Hrel Ec2) as Hrel'.
      assert (Hn' : Jetflow.di_n (di_push sp ttm kdi2 adi qoil_std vtm s2 inc)
                    = Jetflow.di_n (di_push sp ttm kdi1 adi qoil_std vtm s1 inc)).
      { cbn. now rewrite Hn. }
      rewrite Hn' in Hr2.
      destruct (Nat.eqb _ 15).
      * injection Hr1 as <-. injection Hr2 as <-. left.
        now apply di_rel_warn.
      * now apply (IH _ _ f1 f2 Hrel').
    + destruct (di_rel_shaped _ _ Hrel) as [Hs1 Hs2].
      pose proof (di_rel_pdi _ _ Hrel) as Hpdi.
      cbn [Jetflow.di_loop] in Hr2. rewrite Ec2 in Hr2. injection Hr2 as <-.
      destruct (Jetflow.di_cond s1) eqn:Ec1.
      * right.
        destruct (di_loop_shaped sp ptm ttm kdi1 adi qoil_std vtm (S rem)
                    s1 f1 Hs1 Hr1) as [Hf1 [_ Hlt]].
        repeat split; [exact Hf1 | exact Hs2 |].
        rewrite <- Hpdi. now apply Hlt.
      * cbn [Jetflow.di_loop] in Hr1. rewrite Ec1 in Hr1. injection Hr1 as <-.
        now left.
Qed.

End DiffuserFriction.

Lemma friction_shift_nonneg (k1 k2 v : Q) :
  k1 <= k2 -> 0 <= (k2 - k1) * v ^ 2 / 2.
Proof.
  intro H. assert (Hv : v ^ 2 == v * v) by ring. rewrite Hv.
  assert (Hsq : 0 <= v * v) by nra.
  assert (Hp : 0 <= (k2 - k1) * (v * v)).
  { apply Qmult_le_0_compat; lra. }
  apply Qle_shift_div_l; [reflexivity|].
  generalize dependent ((k2 - k1) * (v * v)). intros. lra.
Qed.

Lemma inject_Z_of_nat_le (m n : nat) :
  (m <= n)%nat -> inject_Z (Z.of_nat m) <= inject_Z (Z.of_nat n).
Proof. intro H. rewrite <- Zle_Qle. lia. Qed.

Lemma di_shape_step_le {R : Type} (ptm : Q) (s : Jetflow.di_locals (R := R))
  pre_d pre_p dl pl :
  di_shape ptm s pre_d pre_p dl pl -> pre_p <> [] -> last_of pre_p <= pl.
Proof.
  intros [_ _ _ _ Hpl Hpp] Hne. rewrite Hpl, (Hpp Hne).
  pose proof (inject_Z_of_nat_le (length pre_p - 1) (length pre_p)
                ltac:(lia)).
  lra.
Qed.

(** C7, as the code has it: with all other inputs fixed and both calls
    returning, a larger diffuser friction factor gives the same throat
    velocity and a discharge pressure that is lower or equal. *)
Theorem diffuser_discharge_antitone {R : Type} {RM : ResMixOps R}
  (sp : SinglePhase) (ptm ttm kdi1 kdi2 ath adi qoil_std : Q) (prop_tm : R)
  (vtm1 pdi1 vtm2 pdi2 : Q) (out1 out2 : list string) :
  kdi1 <= kdi2 ->
  Jetflow.diffuser_discharge sp ptm ttm kdi1 ath adi qoil_std prop_tm
  = Ok (vtm1, pdi1, out1) ->
  Jetflow.diffuser_discharge sp ptm ttm kdi2 ath adi qoil_std prop_tm
  = Ok (vtm2, pdi2, out2) ->
  vtm2 = vtm1 /\ pdi2 <= pdi1.
Proof.
  intros Hk H1 H2.
  unfold Jetflow.diffuser_discharge, Jetflow.diffuser_trace in H1, H2.
  set (vtm := velocity sp
                (py_sum (insitu_volm_flow (condition prop_tm ptm ttm) qoil_std))
                ath) in *.
  destruct (di_init_shape sp ptm ttm kdi1 ath adi qoil_std prop_tm)
    as [d1 [Hs1 Ed1]].
  destruct (di_init_shape sp ptm ttm kdi2 ath adi qoil_std prop_tm)
    as [d2 [Hs2 Ed2]].
  change (Jetflow.di_init sp ptm ttm kdi1 ath adi qoil_std prop_tm)
    with (vtm, snd (Jetflow.di_init sp ptm ttm kdi1 ath adi qoil_std prop_tm))
    in H1.
  change (Jetflow.di_init sp ptm ttm kdi2 ath adi qoil_std prop_tm)
    with (vtm, snd (Jetflow.di_init sp ptm ttm kdi2 ath adi qoil_std prop_tm))
    in H2.
  cbn [fst] in H1, H2.
  set (s1 := snd (Jetflow.di_init sp ptm ttm kdi1 ath adi qoil_std prop_tm)) in *.
  set (s2 := snd (Jetflow.di_init sp ptm ttm kdi2 ath adi qoil_std prop_tm)) in *.
  destruct (Jetflow.di_loop sp 15 ttm kdi1 adi qoil_std vtm s1) as [f1| |] eqn:E1;
    try discriminate.
  destruct (Jetflow.di_loop sp 15 ttm kdi2 adi qoil_std vtm s2) as [f2| |] eqn:E2;
    try discriminate.
  cbn [bind] in H1, H2.
  destruct (Np.interp_nd 0 (Jetflow.dte_ray f1) _) as [r1| |] eqn:I1;
    try discriminate.
  destruct (Np.interp_nd 0 (Jetflow.dte_ray f2) _) as [r2| |] eqn:I2;
    try discriminate.
  cbn [bind] in H1, H2.
  injection H1 as <- <- <-. injection H2 as <- <- <-.
  split; [reflexivity|].
  set (c := (kdi2 - kdi1) * vtm ^ 2 / 2).
  assert (Hc0 : 0 <= c).
  { unfold c. now apply friction_shift_nonneg. }
  assert (Hrel : di_rel c ptm s1 s2).
  { repeat split.
    exists [], [], [], d1, d2, ptm.
    split; [exact Hs1|]. split; [exact Hs2|]. split.
    - rewrite Ed1, Ed2. cbn [fst Jetflow.di_init]. fold vtm.
      generalize (velocity sp
                    (py_sum (insitu_volm_flow (condition prop_tm ptm ttm)
                               qoil_std)) adi).
      intro vdi. unfold c, Jetflow.diffuser_ke. field.
    - intro H. contradiction. }
  assert (Hfinal : forall (f : Jetflow.di_locals (R := R)) pre_d pre_p dl pl r,
            di_shape ptm f pre_d pre_p dl pl ->
            Np.interp_nd 0 (Jetflow.dte_ray f) (Np.Arr1 (Jetflow.pdi_ray f))
            = Ok r ->
            pre_d <> [] /\ pre_p <> [] /\
            r = crossing (last_of pre_d) dl (last_of pre_p) pl /\
            last_of pre_d < 0 /\ last_of pre_p <= pl).
  { intros f pre_d pre_p dl pl r Hsh Hi.
    destruct (shape_interp ptm f _ _ _ _ Hsh) as [Hnil Hcons].
    destruct pre_d as [|a rd].
    - rewrite (Hnil eq_refl) in Hi. discriminate.
    - assert (Hne : a :: rd <> []) by discriminate.
      rewrite (Hcons Hne) in Hi. injection Hi as <-.
      assert (Hpne : pre_p <> []).
      { intro E. pose proof (sh_len _ _ _ _ _ _ Hsh) as Hl.
        rewrite E in Hl. discriminate. }
      repeat split; try assumption.
      + destruct (Forall_hd_last _ _ Hne (sh_neg _ _ _ _ _ _ Hsh)) as [_ Hl].
        exact Hl.
      + now apply (di_shape_step_le ptm f (a :: rd) pre_p dl pl). }
  destruct (di_lockstep sp c ptm ttm kdi1 kdi2 adi qoil_std vtm Hc0
              ltac:(reflexivity) 15 s1 s2 f1 f2 Hrel E1 E2)
    as [Hrelf | [Hf1 [Hf2 Hlt]]].
  - destruct Hrelf
      as [_ [_ [_ [_ [pre1 [pre2 [pre_p [dl1 [dl2 [pl [G1 [G2 [Hd Hl]]]]]]]]]]]]].
    destruct (Hfinal _ _ _ _ _ _ G1 I1) as [Hn1 [Hp1 [-> [Hneg1 Hle1]]]].
    destruct (Hfinal _ _ _ _ _ _ G2 I2) as [Hn2 [Hp2 [-> [Hneg2 _]]]].
    apply (crossing_antitone c); try assumption. now apply Hl.
  - destruct Hf1 as [pre1 [pp1 [dl1 [pl1 G1]]]].
    destruct Hf2 as [pre2 [pp2 [dl2 [pl2 G2]]]].
    destruct (Hfinal _ _ _ _ _ _ G1 I1) as [Hn1 [Hp1 [-> [Hneg1 Hle1]]]].
    destruct (Hfinal _ _ _ _ _ _ G2 I2) as [Hn2 [Hp2 [-> [Hneg2 Hle2]]]].
    destruct (crossing_bounds (last_of pre1) dl1 (last_of pp1) pl1 Hneg1 Hle1)
      as [Hlow _].
    destruct (crossing_bounds (last_of pre2) dl2 (last_of pp2) pl2 Hneg2 Hle2)
      as [_ Hup].
    rewrite (sh_pdi _ _ _ _ _ _ G1), (sh_pdi _ _ _ _ _ _ G2) in Hlt.
    rewrite !length_app in Hlt. cbn [length] in Hlt.
    pose proof (sh_pl _ _ _ _ _ _ G2) as Hpl2.
    pose proof (sh_pp _ _ _ _ _ _ G1 Hp1) as Hpp1.
    pose proof (inject_Z_of_nat_le (length pp2) (length pp1 - 1) ltac:(lia)).
    lra.
Qed.

Lemma diffuser_discharge_antitone_witness :
  exists vtm1 pdi1 vtm2 pdi2,
    Jetflow.diffuser_discharge Examples.sp_std 1000 80 0 0.5 1 1
      Examples.mix_unit = Ok (vtm1, pdi1, []) /\
    Jetflow.diffuser_discharge Examples.sp_std 1000 80 0.5 0.5 1 1
      Examples.mix_unit = Ok (vtm2, pdi2, []) /\
    vtm2 = vtm1 /\ pdi2 <= pdi1.
Proof.
  do 4 eexists. split; [vm_compute; reflexivity|].
  split; [vm_compute; reflexivity|].
  eapply (diffuser_discharge_antitone Examples.sp_std 1000 80 0 0.5 0.5 1 1
            Examples.mix_unit).
  - vm_compute. discriminate.
  - vm_compute. reflexivity.
  - vm_compute. reflexivity.
Defined.

(** C7 as stated fails: raising the friction factor from 0 to 0.5 lowers
    the discharge pressure from 1150 to 1050 psig. *)
Lemma diffuser_discharge_friction_lowers :
  exists vtm pdi1 pdi2,
    Jetflow.diffuser_discharge Examples.sp_std 1000 80 0 0.5 1 1
      Examples.mix_unit = Ok (vtm, pdi1, []) /\
    Jetflow.diffuser_discharge Examples.sp_std 1000 80 0.5 0.5 1 1
      Examples.mix_unit = Ok (vtm, pdi2, []) /\
    0 <= 0.5 /\ pdi1 == 1150 /\ pdi2 == 1050 /\ pdi2 < pdi1.
Proof.
  do 3 eexists. split; [vm_compute; reflexivity|].
  split; [vm_compute; reflexivity|].
  repeat split; vm_compute; try reflexivity; discriminate.
Qed.

(** With a friction factor that makes the first sample's energy
    non-negative the loop takes no step and the final [np.interp] refuses
    the 2-D energy array. *)
Lemma diffuser_discharge_no_step_raises :
  Jetflow.diffuser_discharge Examples.sp_std 1000 80 1 0.5 1 1
    Examples.mix_unit = Raise ValueError.
Proof. vm_compute. reflexivity. Qed.

(** * Further properties of the solver core *)

(** ** Secant update and nozzle *)

(** X1: on an objective that is linear in the suction pressure, with root
    [t] and non-zero slope [a], one secant update from two distinct trial
    pressures lands on the root. *)
Theorem psu_secant_linear_root (a t psu1 psu2 : Q) :
  ~ a == 0 -> ~ psu1 == psu2 ->
  exists psu3,
    Jetflow.psu_secant psu1 psu2 (a * (psu1 - t)) (a * (psu2 - t)) = Ok psu3 /\
    psu3 == t.
Proof.
  intros Ha Hp.
  assert (Hd : ~ a * (psu1 - t) - a * (psu2 - t) == 0).
  { intro E. assert (E' : a * (psu1 - psu2) == 0) by (rewrite <- E; ring).
    apply Qmult_integral in E'. destruct E' as [E' | E']; [contradiction|].
    apply Hp. lra. }
  assert (Hne : ~ a * (psu1 - t) == a * (psu2 - t)).
  { intro E. apply Hd. rewrite E. ring. }
  rewrite (psu_secant_distinct _ _ _ _ Hne).
  eexists. split; [reflexivity|]. field. exact Hd.
Qed.

Lemma psu_secant_linear_root_witness :
  exists psu3,
    Jetflow.psu_secant 900 800 (2 * (900 - 650)) (2 * (800 - 650)) = Ok psu3 /\
    psu3 == 650.
Proof.
  apply (psu_secant_linear_root 2 650 900 800); discriminate.
Defined.

(** X2: [nozzle_velocity] does not guard its divisor: with a nozzle
    friction factor of -1 or a zero power-fluid density it divides by
    zero. *)
Theorem nozzle_velocity_zero_divisor (root : Q -> Q) (pni pte knz rho_nz : Q) :
  rho_nz * (1 + knz) == 0 ->
  Jetflow.nozzle_velocity root pni pte knz rho_nz = Raise ZeroDivisionError.
Proof.
  intro H. unfold Jetflow.nozzle_velocity. now rewrite (fdiv_zero _ _ H).
Qed.

Lemma nozzle_velocity_zero_divisor_witness :
  Jetflow.nozzle_velocity Examples.root_id 3000 800 (-1) 62
  = Raise ZeroDivisionError.
Proof.
  apply (nozzle_velocity_zero_divisor Examples.root_id 3000 800 (-1) 62).
  reflexivity.
Defined.

(** ** Throat watercut *)





(** X5: [throat_wc] divides by zero at a suction watercut of 1, and when
    neither oil nor water flows. *)
Theorem throat_wc_undefined (qoil_std wc_su qwat_nz : Q) :
  (wc_su == 1 \/ (qoil_std == 0 /\ qwat_nz == 0)) ->
  Jetflow.throat_wc qoil_std wc_su qwat_nz = Raise ZeroDivisionError.
Proof.
  intros H. unfold Jetflow.throat_wc.
  destruct (Qeq_bool (1 - wc_su) 0) eqn:E.
  - apply Qeq_bool_eq in E. now rewrite (fdiv_zero _ _ E).
  - apply Qeq_bool_neq in E. rewrite (fdiv_ok _ _ E). cbn [bind].
    destruct H as [H | [Hq Hn]]; [exfalso; apply E; lra|].
    apply fdiv_zero. rewrite Hq, Hn. field. exact E.
Qed.

Lemma throat_wc_undefined_witness :
  Jetflow.throat_wc 400 1 1200 = Raise ZeroDivisionError /\
  Jetflow.throat_wc 0 0.5 0 = Raise ZeroDivisionError.
Proof.
  split.
  - apply (throat_wc_undefined 400 1 1200). left. reflexivity.
  - apply (throat_wc_undefined 0 0.5 0). right. split; reflexivity.
Defined.

(** ** Expansion-energy increments *)

(** X6: over two samples of positive density the increment has the sign of
    the pressure step: positive for rising pressure (diffuser), negative
    for falling pressure (throat entry), zero for none. *)
Theorem incremental_ee_sign (p0 p1 r0 r1 : Q) :
  0 < r0 -> 0 < r1 ->
  exists inc,
    Jetflow.incremental_ee [p0; p1] [r0; r1] = Ok inc /\
    (p0 < p1 -> 0 < inc) /\ (p1 < p0 -> inc < 0) /\ (p0 == p1 -> inc == 0).
Proof.
  intros H0 H1. unfold Jetflow.incremental_ee. cbn [mapM bind].
  rewrite !npdiv_ok by lra. cbn [bind map]. unfold Np.trapezoid.
  cbn [length Nat.eqb Np.trapz]. eexists. split; [reflexivity|].
  assert (Hy : 0 < 1 / r1 + 1 / r0).
  { assert (0 < 1 / r0) by (apply Qlt_shift_div_l; lra).
    assert (0 < 1 / r1) by (apply Qlt_shift_div_l; lra). lra. }
  generalize dependent (1 / r1 + 1 / r0). intros y Hy.
  assert (E : (144 * 32.174 * p1 - 144 * 32.174 * p0) * y / 2 + 0
              == 2316.528 * ((p1 - p0) * y)) by field.
  repeat split.
  - intro Hp. rewrite E. assert (H : 0 < (p1 - p0) * y) by nra.
    generalize dependent ((p1 - p0) * y). intros. lra.
  - intro Hp. rewrite E. assert (H : (p1 - p0) * y < 0) by nra.
    generalize dependent ((p1 - p0) * y). intros. lra.
  - intro Hp. rewrite E, Hp. ring.
Qed.

Lemma incremental_ee_sign_witness :
  exists inc,
    Jetflow.incremental_ee [1000; 1100] [50; 52] = Ok inc /\
    (1000 < 1100 -> 0 < inc) /\ (1100 < 1000 -> inc < 0) /\
    (1000 == 1100 -> inc == 0).
Proof.
  apply (incremental_ee_sign 1000 1100 50 52); reflexivity.
Defined.

(** X7: the increment over three samples is the sum of the increments over
    its two pairs of neighbours. *)
Theorem incremental_ee_additive (p0 p1 p2 r0 r1 r2 inc : Q) :
  Jetflow.incremental_ee [p0; p1; p2] [r0; r1; r2] = Ok inc ->
  exists inc01 inc12,
    Jetflow.incremental_ee [p0; p1] [r0; r1] = Ok inc01 /\
    Jetflow.incremental_ee [p1; p2] [r1; r2] = Ok inc12 /\
    inc == inc01 + inc12.
Proof.
  unfold Jetflow.incremental_ee. cbn [mapM bind].
  destruct (npdiv 1 r0) as [y0| |]; try discriminate. cbn [bind].
  destruct (npdiv 1 r1) as [y1| |]; try discriminate. cbn [bind].
  destruct (npdiv 1 r2) as [y2| |]; try discriminate. cbn [bind map].
  unfold Np.trapezoid. cbn [length Nat.eqb Np.trapz].
  intro H. injection H as <-.
  do 2 eexists. split; [reflexivity|]. split; [reflexivity|]. ring.
Qed.

Lemma incremental_ee_additive_witness :
  exists inc inc01 inc12,
    Jetflow.incremental_ee [1000; 1100; 1200] [50; 52; 54] = Ok inc /\
    Jetflow.incremental_ee [1000; 1100] [50; 52] = Ok inc01 /\
    Jetflow.incremental_ee [1100; 1200] [52; 54] = Ok inc12 /\
    inc == inc01 + inc12.
Proof.
  eexists.
  destruct (incremental_ee_additive 1000 1100 1200 50 52 54 _ eq_refl)
    as [a [b [Ha [Hb Hs]]]].
  exists a, b. split; [reflexivity|]. repeat split; assumption.
Defined.

Lemma mapM_npdiv_ok (l : list Q) :
  Forall (fun r => ~ r == 0) l ->
  mapM (npdiv 1) l = Ok (map (fun r => 1 / r) l).
Proof.
  induction 1 as [|r l Hr Hl IH]; [reflexivity|].
  cbn [mapM map]. rewrite (npdiv_ok _ _ Hr). cbn [bind]. now rewrite IH.
Qed.

Lemma mapM_npdiv_zero (l : list Q) :
  Exists (fun r => r == 0) l -> mapM (npdiv 1) l = Raise NonFinite.
Proof.
  induction 1 as [r l Hr | r l Hl IH]; cbn [mapM].
  - unfold npdiv. now rewrite (Qeq_eq_bool _ _ Hr).
  - unfold npdiv at 1. destruct (Qeq_bool r 0); [reflexivity|].
    cbn [bind]. now rewrite IH.
Qed.



(** ** The throat-entry search, further *)

Section TeeLastMore.

Context {R : Type} {RM : ResMixOps R}.
Variable sp : SinglePhase.

Lemma tee_body_mach (tsu ken ate qoil_std : Q) (s s' : Jetflow.te_locals) :
  Jetflow.tee_body sp tsu ken ate qoil_std s = Ok s' ->
  exists m, Jetflow.mach_ray s' = Jetflow.mach_ray s ++ [m].
Proof.
  unfold Jetflow.tee_body.
  destruct (fdiv _ _) as [m| |]; try discriminate. cbn [bind].
  destruct (Jetflow.incremental_ee _ _) as [inc| |]; try discriminate.
  cbn [bind]. intro H. injection H as <-. cbn. now exists m.
Qed.

Lemma tee_cond_inv (s : Jetflow.te_locals (R := R)) :
  Jetflow.tee_cond s = true ->
  last_of (Jetflow.mach_ray s) <= 1 /\ 50 < last_of (Jetflow.pte_ray s).
Proof.
  unfold Jetflow.tee_cond. intro H. apply andb_prop in H.
  destruct H as [Hm Hp]. apply Qleb_le in Hm. apply Qgtb_gt in Hp.
  now split.
Qed.

End TeeLastMore.



(** X10: in the trace of [tee_last] every appended pressure is positive,
    every sample before the last has mach at most 1, and the last sample is
    supersonic or at 50 psi or less. *)
Theorem tee_last_exit_state {R : Type} {RM : ResMixOps R} (sp : SinglePhase)
  (psu tsu ken ate : Q) (ipr_su : InFlow) (prop_su : R) s :
  Jetflow.tee_trace sp psu tsu ken ate ipr_su prop_su = Ok s ->
  (forall i b, nth_error (Jetflow.pte_ray s) (S i) = Some b -> 0 < b) /\
  (forall i m, nth_error (Jetflow.mach_ray s) i = Some m ->
               (S i < length (Jetflow.mach_ray s))%nat -> m <= 1) /\
  (1 < last_of (Jetflow.mach_ray s) \/ last_of (Jetflow.pte_ray s) <= 50).
Proof.
  intro Hs. destruct (tee_trace_exit sp _ _ _ _ _ _ _ Hs) as [Hpos Hexit].
  split; [exact Hpos|]. split; [|exact Hexit].
  unfold Jetflow.tee_trace in Hs.
  destruct (Jetflow.tee_init _ _ _ _ _ _ _) as [s0| |] eqn:E0; try discriminate.
  cbn [bind] in Hs.
  apply (tee_loop_inv sp
           (fun s => forall i m,
              nth_error (Jetflow.mach_ray s) i = Some m ->
              (S i < length (Jetflow.mach_ray s))%nat -> m <= 1)
           tsu ken ate (oil_flow ipr_su psu)) with
      (fuel := Jetflow.tee_fuel psu) (s := s0) (s' := s); [| |exact Hs].
  - intros s1 s2 H1 Hc Hb i m Hn Hi.
    apply tee_cond_inv in Hc. destruct Hc as [Hm _].
    apply tee_body_mach in Hb. destruct Hb as [m' Hb]. rewrite Hb in Hn, Hi.
    rewrite length_app in Hi. cbn [length] in Hi.
    rewrite nth_error_snoc_lt in Hn by lia.
    destruct (Nat.eq_dec (S i) (length (Jetflow.mach_ray s1))) as [E | E].
    + now rewrite <- (nth_error_is_last _ _ _ Hn E).
    + apply (H1 i m Hn). lia.
  - intros i m Hn Hi. apply tee_init_shape in E0.
    destruct E0 as [_ [Hl _]]. rewrite Hl in Hi. lia.
Qed.

Lemma tee_last_exit_state_witness :
  exists s,
    Jetflow.tee_trace Examples.sp_std 200 80 0 1
      (Examples.ipr_const 120 500) {| Examples.so_p := 0 |} = Ok s /\
    map Qred (Jetflow.pte_ray s) = [200; 150; 100] /\
    map Qred (Jetflow.mach_ray s) = [3 # 5; 4 # 5; 6 # 5] /\
    (forall i b, nth_error (Jetflow.pte_ray s) (S i) = Some b -> 0 < b) /\
    (forall i m, nth_error (Jetflow.mach_ray s) i = Some m ->
                 (S i < length (Jetflow.mach_ray s))%nat -> m <= 1).
Proof.
  eexists. split; [vm_compute; reflexivity|].
  split; [vm_compute; reflexivity|]. split; [vm_compute; reflexivity|].
  match goal with |- (forall i b, nth_error (Jetflow.pte_ray ?s) _ = _ -> _) /\ _ =>
    destruct (tee_last_exit_state Examples.sp_std 200 80 0 1
                (Examples.ipr_const 120 500) {| Examples.so_p := 0 |} s)
      as [H1 [H2 _]] end.
  - vm_compute. reflexivity.
  - split; [exact H1 | exact H2].
Defined.

Section TeeLastReturns.

Context {R : Type} {RM : ResMixOps R}.
Variable sp : SinglePhase.
Variable good : R -> Prop.
Hypothesis good_condition : forall r p t, good r -> good (condition r p t).
Hypothesis good_nonzero :
  forall r, good r -> ~ cmix r == 0 /\ ~ rho_mix r == 0.

Lemma tee_body_ok (tsu ken ate qoil_std : Q) (s : Jetflow.te_locals) :
  te_sound good s ->
  exists s',
    Jetflow.tee_body sp tsu ken ate qoil_std s = Ok s' /\ te_sound good s'.
Proof.
  intros [Hg [Hp [Hr Hl]]]. unfold Jetflow.tee_body.
  pose proof (good_condition _ (last_of (Jetflow.pte_ray s) - Jetflow.pdec)
                tsu Hg) as Hg'.
  destruct (good_nonzero _ Hg') as [Hc Hrho].
  rewrite (fdiv_ok _ _ Hc). cbn [bind].
  rewrite (last2_snoc _ _ Hp), (last2_snoc _ _ Hr).
  unfold Jetflow.incremental_ee. cbn [mapM].
  rewrite (npdiv_ok _ _ Hl), (npdiv_ok _ _ Hrho). cbn [bind map].
  unfold Np.trapezoid. cbn [length Nat.eqb bind].
  eexists. split; [reflexivity|]. unfold te_sound.
  cbn [Jetflow.te_prop Jetflow.pte_ray Jetflow.rho_ray].
  repeat split; try assumption.
  - intro E. now destruct (Jetflow.pte_ray s).
  - intro E. now destruct (Jetflow.rho_ray s).
  - now rewrite last_of_snoc.
Qed.

Lemma tee_loop_ok (tsu ken ate qoil_std : Q) (fuel : nat) :
  forall s,
    te_sound good s ->
    (Jetflow.tee_fuel (last_of (Jetflow.pte_ray s)) <= fuel)%nat ->
    exists s', Jetflow.tee_loop sp fuel tsu ken ate qoil_std s = Ok s'.
Proof.
  induction fuel as [|fuel IH]; intros s Hs Hfuel; cbn [Jetflow.tee_loop];
    destruct (Jetflow.tee_cond s) eqn:Ec; try (now exists s).
  - apply tee_cond_inv in Ec. destruct Ec as [_ Hp].
    pose proof (tee_fuel_step _ Hp). lia.
  - apply tee_cond_inv in Ec. destruct Ec as [_ Hp].
    destruct (tee_body_ok tsu ken ate qoil_std s Hs) as [s1 [Hb Hs1]].
    rewrite Hb. cbn [bind]. apply IH; [exact Hs1|].
    apply tee_body_last in Hb. destruct Hb as [Hb _].
    rewrite Hb, last_of_snoc. pose proof (tee_fuel_step _ Hp). lia.
Qed.

End TeeLastReturns.



(** X12: a zero sonic velocity at the suction sample makes [tee_last]
    divide by zero. *)
Theorem tee_last_zero_sonic_velocity {R : Type} {RM : ResMixOps R}
  (sp : SinglePhase) (psu tsu ken ate : Q) (ipr_su : InFlow) (prop_su : R) :
  cmix (condition prop_su psu tsu) == 0 ->
  Jetflow.tee_last sp psu tsu ken ate ipr_su prop_su = Raise ZeroDivisionError.
Proof.
  intro H. unfold Jetflow.tee_last, Jetflow.tee_trace, Jetflow.tee_init.
  now rewrite (fdiv_zero _ _ H).
Qed.

Lemma tee_last_zero_sonic_velocity_witness :
  Jetflow.tee_last Examples.sp_std 0 80 0 1
    (Examples.ipr_const 120 500) {| Examples.so_p := 700 |}
  = Raise ZeroDivisionError.
Proof.
  apply (tee_last_zero_sonic_velocity Examples.sp_std 0 80 0 1
           (Examples.ipr_const 120 500) {| Examples.so_p := 700 |}).
  reflexivity.
Defined.

(** ** The zero-crossing lookup, further *)

(** X13: on a two-sample trace of falling pressure whose energy falls from
    positive to negative, [tee_zero] returns the pressure, density and
    velocity on the straight line between the two samples at energy zero;
    the pressure lies strictly between the two sample pressures. *)
Theorem tee_zero_two_samples (p0 p1 r0 r1 v0 v1 t0 t1 : Q) :
  p1 < p0 -> t1 < 0 -> 0 < t0 ->
  Jetflow.tee_zero [p0; p1] [r0; r1] [v0; v1] [t0; t1]
  = Ok ((p0 - p1) / (t0 - t1) * (0 - t1) + p1,
        (r0 - r1) / (t0 - t1) * (0 - t1) + r1,
        (v0 - v1) / (t0 - t1) * (0 - t1) + v1) /\
  p1 < (p0 - p1) / (t0 - t1) * (0 - t1) + p1 < p0.
Proof.
  intros Hp Ht1 Ht0.
  assert (Hg : 0 <= (t1 - t0) / (p1 - p0)).
  { assert (E : (t1 - t0) / (p1 - p0) == (t0 - t1) / (p0 - p1))
      by (field; lra).
    rewrite E. apply Qle_shift_div_l; lra. }
  apply Qgeb_ge in Hg.
  assert (E1 : Qltb t0 0 = false) by (apply Qltb_ge; lra).
  assert (E2 : Qltb 0 t1 = false) by (apply Qltb_ge; lra).
  assert (E3 : Qleb t0 0 = false) by (apply Qleb_gt; lra).
  assert (E4 : Qeq_bool t1 0 = false).
  { destruct (Qeq_bool t1 0) eqn:E; [|reflexivity].
    apply Qeq_bool_eq in E. lra. }
  split.
  - unfold Jetflow.tee_zero, Jetflow.tee_positive_slope, Np.gradient.
    cbn [length Nat.eqb negb Np.gradient_from].
    rewrite (npdiv_ok (t1 - t0) (p1 - p0)) by lra.
    cbn [bind map]. rewrite Hg.
    unfold Np.bool_index, Np.flip, Np.interp.
    cbn [length Nat.eqb Np.select bind rev app negb last_of last combine
         Np.interp_scan].
    rewrite E1, E2. cbn [bind Np.interp_scan]. rewrite E3, E4. reflexivity.
  - assert (HD : 0 < t0 - t1) by lra.
    assert (Ht : (p0 - p1) / (t0 - t1) * (0 - t1) + p1
                 == (p0 - p1) * ((0 - t1) / (t0 - t1)) + p1) by (field; lra).
    assert (Ha : 0 < (0 - t1) / (t0 - t1)) by (apply Qlt_shift_div_l; lra).
    assert (Hb : (0 - t1) / (t0 - t1) < 1) by (apply Qlt_shift_div_r; lra).
    rewrite Ht. clear Ht.
    generalize dependent ((0 - t1) / (t0 - t1)). intros u Hu0 Hu1.
    split; nra.
Qed.

Lemma tee_zero_two_samples_witness :
  Jetflow.tee_zero [150; 100] [60; 55] [10; 11] [1; -3]
  = Ok ((150 - 100) / (1 - -3) * (0 - -3) + 100,
        (60 - 55) / (1 - -3) * (0 - -3) + 55,
        (10 - 11) / (1 - -3) * (0 - -3) + 11) /\
  100 < (150 - 100) / (1 - -3) * (0 - -3) + 100 < 150.
Proof.
  apply (tee_zero_two_samples 150 100 60 55 10 11 1 (-3)); reflexivity.
Defined.



(** ** The diffuser search, further *)

(** X15: when the diffuser energy of the first sample is already
    non-negative (for instance with a friction factor of 1 or more) the loop
    of [diffuser_discharge] takes no step, the energy array keeps the 2-D
    shape of its initialisation and the final [np.interp] raises
    [ValueError]. *)
Theorem diffuser_discharge_no_step {R : Type} {RM : ResMixOps R}
  (sp : SinglePhase) (ptm ttm kdi ath adi qoil_std : Q) (prop_tm : R) :
  let qtot := py_sum (insitu_volm_flow (condition prop_tm ptm ttm) qoil_std) in
  0 <= Jetflow.diffuser_ke kdi (velocity sp qtot ath) (velocity sp qtot adi) ->
  Jetflow.diffuser_discharge sp ptm ttm kdi ath adi qoil_std prop_tm
  = Raise ValueError.
Proof.
  intros qtot Hke.
  unfold Jetflow.diffuser_discharge, Jetflow.diffuser_trace, Jetflow.di_init.
  fold qtot. cbn [fst Jetflow.di_loop].
  assert (Hc : forall s : Jetflow.di_locals (R := R),
            Jetflow.dte_ray s
            = Np.Arr2 [[Jetflow.diffuser_ke kdi (velocity sp qtot ath)
                          (velocity sp qtot adi) + 0]] ->
            Jetflow.di_cond s = false).
  { intros s Hs. unfold Jetflow.di_cond. rewrite Hs. cbn.
    apply Qltb_ge. lra. }
  rewrite Hc by reflexivity. reflexivity.
Qed.

Lemma diffuser_discharge_no_step_witness :
  Jetflow.diffuser_discharge Examples.sp_std 1000 80 1 0.5 1 1
    Examples.mix_unit = Raise ValueError.
Proof.
  apply (diffuser_discharge_no_step Examples.sp_std 1000 80 1 0.5 1 1
           Examples.mix_unit).
  vm_compute. discriminate.
Defined.

Section DiffuserCount.

Context {R : Type} {RM : ResMixOps R}.
Variable sp : SinglePhase.

Lemma di_loop_count (ttm kdi adi qoil_std vtm : Q) (rem : nat) :
  forall s f : Jetflow.di_locals (R := R),
    (Jetflow.di_n s + rem = 15)%nat ->
    length (Jetflow.pdi_ray s) = S (Jetflow.di_n s) ->
    Jetflow.di_out s = [] ->
    Jetflow.di_loop sp rem ttm kdi adi qoil_std vtm s = Ok f ->
    length (Jetflow.pdi_ray f) = S (Jetflow.di_n f) /\
    (Jetflow.di_n f <= 15)%nat /\
    ((Jetflow.di_n f < 15)%nat ->
     Jetflow.di_cond f = false /\ Jetflow.di_out f = []) /\
    ((Jetflow.di_n s < 15)%nat -> Jetflow.di_n f = 15%nat ->
     Jetflow.di_out f = ["Diffuser did not find discharge pressure"%string]).
Proof.
  induction rem as [|rem IH]; intros s f Hn Hl Ho Hrun;
    cbn [Jetflow.di_loop] in Hrun;
    destruct (Jetflow.di_cond s) eqn:Ec; try discriminate.
  - injection Hrun as <-. repeat split; try lia; assumption.
  - rewrite di_body_push in Hrun.
    destruct (Jetflow.incremental_ee _ _) as [inc| |]; try discriminate.
    cbn [bind] in Hrun.
    pose proof (di_push_length sp ttm kdi adi qoil_std vtm inc s) as Hpl.
    assert (Hn1 : Jetflow.di_n (di_push sp ttm kdi adi qoil_std vtm s inc)
                  = S (Jetflow.di_n s)) by (cbn; lia).
    assert (Ho1 : Jetflow.di_out (di_push sp ttm kdi adi qoil_std vtm s inc)
                  = []) by (cbn; exact Ho).
    remember (di_push sp ttm kdi adi qoil_std vtm s inc) as s1 eqn:Es1.
    clear Es1.
    destruct (Nat.eqb (Jetflow.di_n s1) 15) eqn:E15.
    + apply Nat.eqb_eq in E15. injection Hrun as <-.
      unfold Jetflow.di_warn.
      cbn [Jetflow.di_n Jetflow.di_out Jetflow.pdi_ray].
      split; [lia|]. split; [lia|]. split; [intro; lia|].
      intros _ _. now rewrite Ho1.
    + apply Nat.eqb_neq in E15.
      destruct (IH s1 f) as [H1 [H2 [H3 H4]]]; try assumption; try lia.
      split; [exact H1|]. split; [exact H2|]. split; [exact H3|].
      intros _ Hf. apply H4; [lia | exact Hf].
  - injection Hrun as <-. repeat split; try lia; assumption.
Qed.

End DiffuserCount.

(** X16: when [diffuser_discharge] returns, the discharge pressure lies
    between the throat pressure and the throat pressure plus 1500 psi (15
    steps of 100), and the console shows nothing or the single warning of
    the step cap. *)
Theorem diffuser_discharge_range {R : Type} {RM : ResMixOps R}
  (sp : SinglePhase) (ptm ttm kdi ath adi qoil_std : Q) (prop_tm : R)
  (vtm pdi : Q) (out : list string) :
  Jetflow.diffuser_discharge sp ptm ttm kdi ath adi qoil_std prop_tm
  = Ok (vtm, pdi, out) ->
  ptm <= pdi /\ pdi <= ptm + 1500 /\
  (out = [] \/ out = ["Diffuser did not find discharge pressure"%string]).
Proof.
  intro H. unfold Jetflow.diffuser_discharge, Jetflow.diffuser_trace in H.
  destruct (di_init_shape sp ptm ttm kdi ath adi qoil_std prop_tm)
    as [d0 [Hs0 _]].
  destruct (Jetflow.di_init sp ptm ttm kdi ath adi qoil_std prop_tm)
    as [vtm0 s0] eqn:E0.
  cbn [fst snd] in H, Hs0.
  assert (Hinit : Jetflow.di_n s0 = 0%nat /\ Jetflow.di_out s0 = [] /\
                  length (Jetflow.pdi_ray s0) = 1%nat).
  { unfold Jetflow.di_init in E0. injection E0 as _ <-. now cbn. }
  destruct Hinit as [Hn0 [Ho0 Hl0]].
  destruct (Jetflow.di_loop sp 15 ttm kdi adi qoil_std vtm0 s0) as [f| |] eqn:Ef;
    try discriminate.
  cbn [bind] in H.
  destruct (Np.interp_nd 0 (Jetflow.dte_ray f) _) as [r| |] eqn:Ei;
    try discriminate.
  cbn [bind] in H. injection H as _ <- <-.
  destruct (di_loop_shaped sp ptm ttm kdi adi qoil_std vtm0 15 s0 f
              ltac:(do 4 eexists; exact Hs0) Ef)
    as [[pre_d [pre_p [dl [pl Hf]]]] _].
  destruct (di_loop_count sp ttm kdi adi qoil_std vtm0 15 s0 f)
    as [Hlen [Hn15 [Hlow Hcap]]]; try assumption; try lia.
  destruct (shape_interp ptm f _ _ _ _ Hf) as [Hnil Hcons].
  destruct pre_d as [|a rd].
  { rewrite (Hnil eq_refl) in Ei. discriminate. }
  assert (Hne : a :: rd <> []) by discriminate.
  rewrite (Hcons Hne) in Ei. injection Ei as <-.
  assert (Hpne : pre_p <> []).
  { intro E. pose proof (sh_len _ _ _ _ _ _ Hf) as Hl. rewrite E in Hl.
    discriminate. }
  destruct (Forall_hd_last _ _ Hne (sh_neg _ _ _ _ _ _ Hf)) as [_ Hneg].
  pose proof (di_shape_step_le ptm f _ _ _ _ Hf Hpne) as Hstep.
  destruct (crossing_bounds (last_of (a :: rd)) dl (last_of pre_p) pl Hneg Hstep)
    as [Hlo Hup].
  pose proof (sh_pl _ _ _ _ _ _ Hf) as Hpl.
  pose proof (sh_pp _ _ _ _ _ _ Hf Hpne) as Hpp.
  rewrite (sh_pdi _ _ _ _ _ _ Hf), length_app in Hlen. cbn [length] in Hlen.
  pose proof (inject_Z_of_nat_le 0 (length pre_p - 1) ltac:(lia)) as B0.
  pose proof (inject_Z_of_nat_le (length pre_p) 15 ltac:(lia)) as B1.
  change (inject_Z (Z.of_nat 0)) with 0 in B0.
  change (inject_Z (Z.of_nat 15)) with 15 in B1.
  split; [lra|]. split; [lra|].
  destruct (Nat.eq_dec (Jetflow.di_n f) 15) as [E | E].
  - right. apply Hcap; [lia | exact E].
  - left. apply Hlow. lia.
Qed.

Lemma diffuser_discharge_range_witness :
  exists vtm pdi out,
    Jetflow.diffuser_discharge Examples.sp_std 1000 80 0 0.5 1 1
      Examples.mix_unit = Ok (vtm, pdi, out) /\
    1000 <= pdi /\ pdi <= 1000 + 1500 /\
    (out = [] \/ out = ["Diffuser did not find discharge pressure"%string]).
Proof.
  do 3 eexists. split; [vm_compute; reflexivity|].
  eapply (diffuser_discharge_range Examples.sp_std 1000 80 0 0.5 1 1
            Examples.mix_unit).
  vm_compute. reflexivity.
Defined.

(** A search that reaches the step cap: the energy is still negative after
    15 steps, the warning is printed and the last pressure returned. *)
Lemma diffuser_discharge_cap_example :
  exists vtm pdi,
    Jetflow.diffuser_discharge Examples.sp_std 1000 80 0 0.125 1 1
      Examples.mix_unit
    = Ok (vtm, pdi, ["Diffuser did not find discharge pressure"%string]) /\
    pdi == 2500.
Proof.
  do 2 eexists. split; vm_compute; reflexivity.
Qed.

(** ** The throat equation, further *)

(** X17: a throat mixture of zero density at the throat-entry pressure makes
    the seed estimate of [throat_discharge] divide the mass flow by zero:
    the call raises [ZeroDivisionError] before the loop starts. *)
Theorem throat_discharge_zero_density {R : Type} {RM : ResMixOps R}
  (sp : SinglePhase) (pte tte kth vnz anz rho_nz vte ate rho_te : Q)
  (prop_tm : R) :
  rho_mix (condition prop_tm pte tte) == 0 ->
  Jetflow.throat_discharge sp pte tte kth vnz anz rho_nz vte ate rho_te prop_tm
  = Raise ZeroDivisionError.
Proof.
  intro H.
  unfold Jetflow.throat_discharge, Jetflow.throat_discharge_loop,
    Jetflow.throat_inlet_momentum, Jetflow.throat_estimate.
  rewrite (fdiv_zero _ _ H). reflexivity.
Qed.

Lemma throat_discharge_zero_density_witness :
  Jetflow.throat_discharge Examples.sp_std 500 80 0 1 1 1 1 1 1
    {| Examples.cm_rho := 0; Examples.cm_c := 1000 |}
  = Raise ZeroDivisionError.
Proof.
  apply (throat_discharge_zero_density Examples.sp_std 500 80 0 1 1 1 1 1 1
           {| Examples.cm_rho := 0; Examples.cm_c := 1000 |}).
  reflexivity.
Defined.

(** X18: for a throat mixture whose density does not depend on pressure
    (and is not zero) the throat equation has the same solution at every
    trial pressure: [throat_discharge] returns the seed estimate
    [pte - dp_tm], after at most one iteration and without the warning. *)
Theorem throat_discharge_incompressible {R : Type} {RM : ResMixOps R}
  (sp : SinglePhase) (pte tte kth vnz anz rho_nz vte ate rho_te rho0 : Q)
  (prop_tm : R) :
  (forall p, rho_mix (condition prop_tm p tte) = rho0) ->
  ~ rho0 == 0 ->
  let ath := anz + ate in
  let mtm := massflow sp rho_nz vnz anz + massflow sp rho_te vte ate in
  let vtm := velocity sp (mtm / rho0) ath in
  let mom_tm := momentum sp rho0 vtm ath in
  let mom_tot :=
    1 / 2 * kth * mom_tm + mom_tm
    - momentum sp rho_nz vnz anz - momentum sp rho_te vte ate in
  Jetflow.throat_discharge sp pte tte kth vnz anz rho_nz vte ate rho_te prop_tm
  = Ok (pte - mom_to_psi sp mom_tot ath, []) /\
  exists s,
    Jetflow.throat_discharge_loop sp pte tte kth vnz anz rho_nz vte ate rho_te
      prop_tm = Ok s /\
    (Jetflow.td_n s <= 1)%nat.
Proof.
  intros Hrho Hnz ath mtm vtm mom_tm mom_tot.
  set (ptm := pte - mom_to_psi sp mom_tot ath).
  assert (Hest : forall p,
            Jetflow.throat_estimate sp pte tte kth ath mtm
              (momentum sp rho_nz vnz anz) (momentum sp rho_te vte ate)
              prop_tm p = Ok ptm).
  { intro p. unfold Jetflow.throat_estimate, Jetflow.throat_outlet_momentum.
    rewrite Hrho, (fdiv_ok _ _ Hnz). reflexivity. }
  unfold Jetflow.throat_discharge, Jetflow.throat_discharge_loop,
    Jetflow.throat_inlet_momentum.
  fold ath mtm. rewrite Hest. cbn [bind].
  cbn [Jetflow.td_loop].
  destruct (Jetflow.td_cond _) eqn:Ec.
  - unfold Jetflow.td_body. cbn [Jetflow.ptm_list]. rewrite Hest. cbn [bind].
    cbn [Jetflow.td_n Nat.add Nat.eqb Jetflow.td_loop].
    assert (Ec' : Jetflow.td_cond
              {| Jetflow.ptm_list := [pte; ptm] ++ [ptm];
                 Jetflow.td_n := 1; Jetflow.td_out := [] |} = false).
    { change (Qgtb (Qabs (ptm - ptm)) Jetflow.ptm_diff = false).
      apply Qgtb_le. unfold Jetflow.ptm_diff.
      generalize ptm. intro x. apply Qabs_Qle_condition. split; lra. }
    cbn [Jetflow.td_out] in *.
    rewrite Ec'. cbn [bind]. split; [reflexivity|].
    eexists. split; [reflexivity|]. cbn. lia.
  - cbn [bind]. split; [reflexivity|].
    eexists. split; [reflexivity|]. cbn. lia.
Qed.

Lemma throat_discharge_incompressible_witness :
  Jetflow.throat_discharge Examples.sp_std 500 80 (1 # 2) 2 1 1 1 1 1
    {| Examples.cm_rho := 1; Examples.cm_c := 1000 |}
  = Ok (500 - mom_to_psi Examples.sp_std
                (1 / 2 * (1 # 2)
                 * momentum Examples.sp_std 1
                     (velocity Examples.sp_std
                        ((massflow Examples.sp_std 1 2 1
                          + massflow Examples.sp_std 1 1 1) / 1) (1 + 1))
                     (1 + 1)
                 + momentum Examples.sp_std 1
                     (velocity Examples.sp_std
                        ((massflow Examples.sp_std 1 2 1
                          + massflow Examples.sp_std 1 1 1) / 1) (1 + 1))
                     (1 + 1)
                 - momentum Examples.sp_std 1 2 1
                 - momentum Examples.sp_std 1 1 1) (1 + 1), []) /\
  exists s,
    Jetflow.throat_discharge_loop Examples.sp_std 500 80 (1 # 2) 2 1 1 1 1 1
      {| Examples.cm_rho := 1; Examples.cm_c := 1000 |} = Ok s /\
    (Jetflow.td_n s <= 1)%nat.
Proof.
  apply (throat_discharge_incompressible Examples.sp_std
           500 80 (1 # 2) 2 1 1 1 1 1 1
           {| Examples.cm_rho := 1; Examples.cm_c := 1000 |}).
  - intro p. reflexivity.
  - discriminate.
Defined.

Lemma diffuser_ke_high_friction (kdi vtm vdi : Q) :
  1 <= kdi -> 0 <= Jetflow.diffuser_ke kdi vtm vdi.
Proof.
  intro H. unfold Jetflow.diffuser_ke.
  apply Qle_shift_div_l; [lra|].
  assert (Hv : 0 <= vdi ^ 2) by (simpl; nra).
  assert (Ht : 0 <= vtm ^ 2) by (simpl; nra).
  generalize dependent (vdi ^ 2). generalize dependent (vtm ^ 2).
  intros a Ha b Hb. nra.
Qed.

(** X22: with a diffuser friction factor of 1 or more the kinetic term can
    never be negative, so [diffuser_discharge] raises [ValueError] for every
    throat state, area and rate. *)
Theorem diffuser_discharge_high_friction {R : Type} {RM : ResMixOps R}
  (sp : SinglePhase) (ptm ttm kdi ath adi qoil_std : Q) (prop_tm : R) :
  1 <= kdi ->
  Jetflow.diffuser_discharge sp ptm ttm kdi ath adi qoil_std prop_tm
  = Raise ValueError.
Proof.
  intro Hk.
  unfold Jetflow.diffuser_discharge, Jetflow.diffuser_trace, Jetflow.di_init.
  cbn [fst Jetflow.di_loop].
  match goal with
  | |- context [Jetflow.di_cond ?s] =>
      assert (Hc : Jetflow.di_cond s = false)
  end.
  { unfold Jetflow.di_cond. cbn [Jetflow.dte_ray Np.nd_last].
    apply Qltb_ge.
    match goal with
    | |- context [Jetflow.diffuser_ke ?k ?a ?b] =>
        pose proof (diffuser_ke_high_friction k a b Hk) as Hke;
        generalize dependent (Jetflow.diffuser_ke k a b)
    end.
    intros x Hx. cbn. lra. }
  rewrite Hc. reflexivity.
Qed.

Lemma diffuser_discharge_high_friction_witness :
  Jetflow.diffuser_discharge Examples.sp_std 1000 80 (3 # 2) 0.25 1 1
    Examples.mix_unit = Raise ValueError.
Proof.
  apply (diffuser_discharge_high_friction Examples.sp_std 1000 80 (3 # 2)
           0.25 1 1 Examples.mix_unit).
  discriminate.
Defined.

(** ** The system residual and the solver shell *)

Section ResidualMore.

Context {R : Type}.
Variable sp : SinglePhase.
Variable jetpump_overall :
  Q -> Q -> Q -> Q -> Q -> Q -> Q -> Q -> Q -> Q -> Q -> InFlow -> R ->
  result (Q * Q * Q * Q * R).
Variable top_down_press :
  Q -> Q -> Q -> R -> Jetcheck.Pipe -> Jetcheck.WellProfile ->
  result (list Q * list Q * list Q).
Variable psu_minimize :
  Q -> Q -> Q -> InFlow -> R -> result (Q * Q * Q * Q * Q).

(** X19: [system_residual] returns a value only when the jet pump
    calculation returned, the outflow traverse returned for the oil rate and
    mixture the jet pump gave, and the traverse's pressure array is not
    empty; the value is then the difference of the two discharge
    pressures. *)
Theorem system_residual_inversion (psu pwh tsu rho_pf ppf_surf : Q)
  (jpump : Jetcheck.JetPump) (wellbore : Jetcheck.Pipe)
  (wellprof : Jetcheck.WellProfile) (ipr_su : InFlow) (prop_su : R) (r : Q) :
  Jetcheck.system_residual sp jetpump_overall top_down_press
    psu pwh tsu rho_pf ppf_surf jpump wellbore wellprof ipr_su prop_su = Ok r ->
  exists pte ptm pdi_jp qoil_std prop_tm md_seg prs_ray slh_ray,
    jetpump_overall psu tsu
      (ppf_surf + diff_press_static sp rho_pf (Jetcheck.jetpump_vd wellprof))
      rho_pf (Jetcheck.ken jpump) (Jetcheck.knz jpump) (Jetcheck.kth jpump)
      (Jetcheck.kdi jpump) (Jetcheck.ath jpump) (Jetcheck.anz jpump)
      (Jetcheck.inn_area wellbore) ipr_su prop_su
    = Ok (pte, ptm, pdi_jp, qoil_std, prop_tm) /\
    top_down_press pwh tsu qoil_std prop_tm wellbore wellprof
    = Ok (md_seg, prs_ray, slh_ray) /\
    prs_ray <> [] /\
    r = pdi_jp - last prs_ray 0.
Proof.
  unfold Jetcheck.system_residual. intro H.
  destruct (jetpump_overall _ _ _ _ _ _ _ _ _ _ _ _ _)
    as [[[[[pte ptm] pdi_jp] qoil_std] prop_tm]| |] eqn:Ej; try discriminate.
  cbn [bind] in H.
  destruct (top_down_press _ _ _ _ _ _) as [[[md prs] slh]| |] eqn:Et;
    try discriminate.
  cbn [bind] in H.
  destruct prs as [|p prs]; [discriminate|].
  cbn [py_last bind] in H. injection H as <-.
  exists pte, ptm, pdi_jp, qoil_std, prop_tm, md, (p :: prs), slh.
  repeat split; try assumption. discriminate.
Qed.

(** X20: when the outflow traverse returns an empty pressure array,
    [prs_ray[-1]] raises [IndexError], whatever the jet pump calculation
    gave. *)
Theorem system_residual_empty_outflow (psu pwh tsu rho_pf ppf_surf : Q)
  (jpump : Jetcheck.JetPump) (wellbore : Jetcheck.Pipe)
  (wellprof : Jetcheck.WellProfile) (ipr_su : InFlow) (prop_su : R)
  (pte ptm pdi_jp qoil_std : Q) (prop_tm : R) (md_seg slh_ray : list Q) :
  jetpump_overall psu tsu
    (ppf_surf + diff_press_static sp rho_pf (Jetcheck.jetpump_vd wellprof))
    rho_pf (Jetcheck.ken jpump) (Jetcheck.knz jpump) (Jetcheck.kth jpump)
    (Jetcheck.kdi jpump) (Jetcheck.ath jpump) (Jetcheck.anz jpump)
    (Jetcheck.inn_area wellbore) ipr_su prop_su
  = Ok (pte, ptm, pdi_jp, qoil_std, prop_tm) ->
  top_down_press pwh tsu qoil_std prop_tm wellbore wellprof
  = Ok (md_seg, [], slh_ray) ->
  Jetcheck.system_residual sp jetpump_overall top_down_press
    psu pwh tsu rho_pf ppf_surf jpump wellbore wellprof ipr_su prop_su
  = Raise IndexError.
Proof.
  intros Hj Ht. unfold Jetcheck.system_residual.
  rewrite Hj. cbn [bind]. rewrite Ht. reflexivity.
Qed.

(** X21: [jetpump_solver] returns (the value [None]) exactly when
    [psu_minimize] returns and [system_residual] returns at the suction
    pressure it found; the sign of the residual changes nothing in what the
    caller gets. *)
Theorem jetpump_solver_returns (pwh tsu rho_pf ppf_surf : Q)
  (jpump : Jetcheck.JetPump) (wellbore : Jetcheck.Pipe)
  (wellprof : Jetcheck.WellProfile) (ipr : InFlow) (prop : R) :
  Jetcheck.jetpump_solver sp psu_minimize jetpump_overall top_down_press
    pwh tsu rho_pf ppf_surf jpump wellbore wellprof ipr prop = Ok tt <->
  exists psu_min qsu_std pte rho_te vte residual,
    psu_minimize tsu (Jetcheck.ken jpump) (Jetcheck.ate jpump) ipr prop
    = Ok (psu_min, qsu_std, pte, rho_te, vte) /\
    Jetcheck.system_residual sp jetpump_overall top_down_press
      psu_min pwh tsu rho_pf ppf_surf jpump wellbore wellprof ipr prop
    = Ok residual.
Proof.
  unfold Jetcheck.jetpump_solver. split.
  - intro H.
    destruct (psu_minimize _ _ _ _ _)
      as [[[[[psu_min qsu_std] pte] rho_te] vte]| |]; try discriminate.
    cbn [bind] in H.
    destruct (Jetcheck.system_residual _ _ _ _ _ _ _ _ _ _ _ _ _)
      as [res| |] eqn:Er; try discriminate.
    exists psu_min, qsu_std, pte, rho_te, vte, res. split; reflexivity || assumption.
  - intros [psu_min [qsu_std [pte [rho_te [vte [res [Hp Hr]]]]]]].
    rewrite Hp. cbn [bind]. rewrite Hr. cbn [bind].
    destruct (Qgeb res 0); reflexivity.
Qed.

End ResidualMore.

Lemma system_residual_inversion_witness :
  exists pte ptm pdi_jp qoil_std prop_tm md_seg prs_ray slh_ray,
    Examples.overall_fixed 1500 400 800 80
      (3000 + diff_press_static Examples.sp_std 62 144) 62 0 0 0 0 2 1 3
      (Examples.ipr_const 400 1200) Examples.mix_unit
    = Ok (pte, ptm, pdi_jp, qoil_std, prop_tm) /\
    Examples.traverse_fixed [400; 1800; 2600] 400 80 qoil_std prop_tm
      {| Jetcheck.inn_area := 3 |} {| Jetcheck.jetpump_vd := 144 |}
    = Ok (md_seg, prs_ray, slh_ray) /\
    prs_ray <> [] /\
    (282528 # 144) = pdi_jp - last prs_ray 0.
Proof.
  apply (system_residual_inversion Examples.sp_std
           (Examples.overall_fixed 1500 400)
           (Examples.traverse_fixed [400; 1800; 2600])
           800 400 80 62 3000
           {| Jetcheck.ken := 0; Jetcheck.knz := 0; Jetcheck.kth := 0;
              Jetcheck.kdi := 0; Jetcheck.ath := 2; Jetcheck.anz := 1;
              Jetcheck.ate := 1 |}
           {| Jetcheck.inn_area := 3 |} {| Jetcheck.jetpump_vd := 144 |}
           (Examples.ipr_const 400 1200) Examples.mix_unit).
  vm_compute. reflexivity.
Defined.

Lemma system_residual_empty_outflow_witness :
  Jetcheck.system_residual Examples.sp_std
    (Examples.overall_fixed 1500 400) (Examples.traverse_fixed [])
    800 400 80 62 3000
    {| Jetcheck.ken := 0; Jetcheck.knz := 0; Jetcheck.kth := 0;
       Jetcheck.kdi := 0; Jetcheck.ath := 2; Jetcheck.anz := 1;
       Jetcheck.ate := 1 |}
    {| Jetcheck.inn_area := 3 |} {| Jetcheck.jetpump_vd := 144 |}
    (Examples.ipr_const 400 1200) Examples.mix_unit
  = Raise IndexError.
Proof.
  eapply (system_residual_empty_outflow Examples.sp_std
            (Examples.overall_fixed 1500 400) (Examples.traverse_fixed [])
            800 400 80 62 3000
            {| Jetcheck.ken := 0; Jetcheck.knz := 0; Jetcheck.kth := 0;
               Jetcheck.kdi := 0; Jetcheck.ath := 2; Jetcheck.anz := 1;
               Jetcheck.ate := 1 |}
            {| Jetcheck.inn_area := 3 |} {| Jetcheck.jetpump_vd := 144 |}
            (Examples.ipr_const 400 1200) Examples.mix_unit).
  - reflexivity.
  - reflexivity.
Defined.
